(** * Huffman coding of text files: a shallow embedding of [Main.py]

    The development follows the Python class [HuffmanCoding]: the frequency
    dictionary, the min-heap of [HeapNode]s (with the [heapq] routines the
    class calls), the code generation, the bit-string encoder with its padding
    header, the byte packing, and the decoder. *)

From Stdlib Require Import ZArith Ascii String List Lia ZifyNat.
From stdpp Require Import base option list gmap strings.

Import ListNotations.
Local Open Scope char_scope.
Local Open Scope Z_scope.

(** ** Python values used by the program *)

(** A Python [str] is a sequence of characters; a character is a [str] of
    length one.  Code points are taken in 0..255. *)
Abbreviation str := (list ascii) (only parsing).

(** String literals. *)
Definition py (s : string) : str := list_ascii_of_string s.

(** The exceptions the program can raise. *)
Inductive exn : Type :=
| IndexError
| KeyError (key : ascii)
| RecursionError
| ValueError
| FileNotFoundError
| TypeError
| UnsupportedOperation.

(** The outcome of a call: a value, or a raised exception.  No method
    catches exceptions, so a raised one ends the whole run. *)
Inductive Res (A : Type) : Type :=
| Ok (a : A)
| Raise (e : exn).
Arguments Ok {A} a.
Arguments Raise {A} e.

#[global] Instance Res_ret : MRet Res := fun A a => Ok a.
#[global] Instance Res_bind : MBind Res := fun A B f m =>
  match m with
  | Ok a => f a
  | Raise e => Raise e
  end.

Module Py.

(** [str.isspace] on a single character, code points below 256. *)
Definition isspace (c : ascii) : bool :=
  let n := nat_of_ascii c in
  (((9 <=? n) && (n <=? 13)) || ((28 <=? n) && (n <=? 32))
   || (n =? 133) || (n =? 160))%nat.

(** [s.rstrip()]: drop the trailing whitespace. *)
Fixpoint rstrip (s : str) : str :=
  match s with
  | [] => []
  | c :: t =>
      match rstrip t with
      | [] => if isspace c then [] else [c]
      | t' => c :: t'
      end
  end.

(** [s[:stop]] for an integer [stop], negative values counting from the
    end. *)
Definition slice_to (s : str) (stop : Z) : str :=
  if stop <? 0
  then take (Z.to_nat (Z.of_nat (length s) + stop)) s
  else take (Z.to_nat stop) s.

(** [s[start:]] for a non-negative [start]. *)
Definition slice_from (s : str) (start : nat) : str := drop start s.

(** [s[i:i+8]] and the like: [s[start:start+len]]. *)
Definition slice (s : str) (start len : nat) : str := take len (drop start s).

(** [s.rjust(width, fill)]. *)
Definition rjust (s : str) (width : nat) (fill : ascii) : str :=
  replicate (width - length s) fill ++ s.

(** The binary digits of a positive number, most significant first. *)
Fixpoint bin_digits (p : positive) : str :=
  match p with
  | xH => ["1"]
  | xO q => bin_digits q ++ ["0"]
  | xI q => bin_digits q ++ ["1"]
  end.

(** [bin(n)]. *)
Definition bin (n : Z) : str :=
  match n with
  | Z0 => py "0b0"
  | Zpos p => py "0b" ++ bin_digits p
  | Zneg p => py "-0b" ++ bin_digits p
  end.

(** ['{0:08b}'.format(n)]: binary digits, zero-filled to width 8 (the sign,
    if any, comes first and counts in the width). *)
Definition format_08b (n : Z) : str :=
  match n with
  | Z0 => rjust ["0"] 8 "0"
  | Zpos p => rjust (bin_digits p) 8 "0"
  | Zneg p => "-" :: rjust (bin_digits p) 7 "0"
  end.

(** The whitespace that [int] skips around a number: the C locale's (tab to
    carriage return, space) and, above 127, the characters Unicode counts as
    whitespace; the separators 28..31, which [str.isspace] accepts, are not
    skipped. *)
Definition int_isspace (c : ascii) : bool :=
  let n := nat_of_ascii c in
  (((9 <=? n) && (n <=? 13)) || (n =? 32) || (n =? 133) || (n =? 160))%nat.

(** Skipping the whitespace in front of a number. *)
Fixpoint int_skip (s : str) : str :=
  match s with
  | c :: t => if int_isspace c then int_skip t else s
  | [] => []
  end.

(** The digit scan of [int(s, 2)]: binary digits with single underscores
    between them.  Returns the value read and what follows the digits;
    [prev_us] tells that the previous character was an underscore, [seen]
    that a digit was read. *)
Fixpoint scan_digits (prev_us seen : bool) (acc : Z) (s : str)
  : option (Z * str) :=
  match s with
  | "0" :: t => scan_digits false true (2 * acc) t
  | "1" :: t => scan_digits false true (2 * acc + 1) t
  | "_" :: t => if prev_us then None else scan_digits true seen acc t
  | _ => if prev_us || negb seen then None else Some (acc, s)
  end.

(** [int(s, 2)]: surrounding whitespace, an optional sign, an optional
    [0b] prefix (which one underscore may follow), then the digits;
    anything else raises [ValueError]. *)
Definition int2 (s : str) : Res Z :=
  let s := int_skip s in
  let '(sign, s) :=
    match s with
    | "+" :: t => (1, t)
    | "-" :: t => (-1, t)
    | _ => (1, s)
    end in
  let s :=
    match s with
    | "0" :: "b" :: "_" :: t | "0" :: "B" :: "_" :: t => t
    | "0" :: "b" :: t | "0" :: "B" :: t => t
    | _ => s
    end in
  match s with
  | "_" :: _ => Raise ValueError
  | _ =>
      match scan_digits false false 0 s with
      | Some (v, rest) =>
          if forallb int_isspace rest then Ok (sign * v)
          else Raise ValueError
      | None => Raise ValueError
      end
  end.

End Py.

(** [for x in xs: body], threading the loop state and stopping at the first
    exception. *)
Fixpoint for_in {A S : Type} (xs : list A) (body : S -> A -> Res S) (s : S)
  : Res S :=
  match xs with
  | [] => Ok s
  | x :: t => s' ← body s x; for_in t body s'
  end.

(** One turn of a loop whose body may [return]. *)
Inductive step (S R : Type) : Type :=
| Continue (s : S)
| Return (r : R).
Arguments Continue {S R} s.
Arguments Return {S R} r.

(** [for x in xs: body] inside a function, when the body may [return]: the
    value returned from inside the loop, or [None] when the loop runs to its
    end. *)
Fixpoint for_in_return {A S R : Type} (xs : list A)
    (body : S -> A -> step S R) (s : S) : option R :=
  match xs with
  | [] => None
  | x :: t =>
      match body s x with
      | Continue s' => for_in_return t body s'
      | Return r => Some r
      end
  end.

(** A [dict] with character keys and integer values, in insertion order (the
    order in which [for key in d] visits it). *)
Module Dict.

Definition t : Type := list (ascii * Z).

(** [k in d] *)
Fixpoint contains (d : t) (k : ascii) : bool :=
  match d with
  | [] => false
  | (k', _) :: r => if decide (k' = k) then true else contains r k
  end.

(** [d[k]] *)
Fixpoint getitem (d : t) (k : ascii) : Res Z :=
  match d with
  | [] => Raise (KeyError k)
  | (k', v) :: r => if decide (k' = k) then Ok v else getitem r k
  end.

(** [d[k] = v]: an existing key keeps its place, a new one goes last. *)
Fixpoint setitem (d : t) (k : ascii) (v : Z) : t :=
  match d with
  | [] => [(k, v)]
  | (k', v') :: r =>
      if decide (k' = k) then (k, v) :: r else (k', v') :: setitem r k v
  end.

Definition keys (d : t) : list ascii := d.*1.
Definition values (d : t) : list Z := d.*2.

End Dict.

(** ** [HuffmanCoding.HeapNode] *)

#[warnings="-register-all"]
Inductive HeapNode : Type := mkHeapNode {
  char : option ascii;       (* a character, or None *)
  freq : Z;
  left : option HeapNode;
  right : option HeapNode
}.

(** [HeapNode(char, freq)] *)
Definition HeapNode_init (c : option ascii) (f : Z) : HeapNode :=
  {| char := c; freq := f; left := None; right := None |}.

(** [__lt__] *)
Definition HeapNode_lt (self other : HeapNode) : bool :=
  freq self <? freq other.

(** ** The [heapq] routines called by the class

    [heapq] orders the nodes with [<] only.  List indexing raises
    [IndexError] out of range. *)
Module heapq.

Definition getitem (heap : list HeapNode) (i : nat) : Res HeapNode :=
  match heap !! i with
  | Some x => Ok x
  | None => Raise IndexError
  end.

Definition setitem (heap : list HeapNode) (i : nat) (x : HeapNode)
  : Res (list HeapNode) :=
  if decide (i < length heap)%nat then Ok (<[i := x]> heap)
  else Raise IndexError.

(** The loop of [_siftdown]: [newitem] moves up from [pos] while it is
    smaller than its parent.  [pos] decreases at each turn. *)
Fixpoint _siftdown_loop (fuel : nat) (heap : list HeapNode)
    (newitem : HeapNode) (startpos pos : nat) : Res (list HeapNode) :=
  match fuel with
  | O => setitem heap pos newitem
  | S fuel' =>
      if decide (startpos < pos)%nat then
        let parentpos := ((pos - 1) / 2)%nat in     (* (pos - 1) >> 1 *)
        parent ← getitem heap parentpos;
        if HeapNode_lt newitem parent then
          heap ← setitem heap pos parent;
          _siftdown_loop fuel' heap newitem startpos parentpos
        else setitem heap pos newitem
      else setitem heap pos newitem
  end.

Definition _siftdown (heap : list HeapNode) (startpos pos : nat)
  : Res (list HeapNode) :=
  newitem ← getitem heap pos;
  _siftdown_loop pos heap newitem startpos pos.

(** The loop of [_siftup]: the smaller child moves up into the hole at
    [pos] until a leaf is reached.  Returns the heap and the final
    [pos]. *)
Fixpoint _siftup_loop (fuel : nat) (heap : list HeapNode) (endpos pos : nat)
  : Res (list HeapNode * nat) :=
  match fuel with
  | O => Ok (heap, pos)
  | S fuel' =>
      let childpos := (2 * pos + 1)%nat in
      if decide (childpos < endpos)%nat then
        let rightpos := (childpos + 1)%nat in
        childpos ←
          (if decide (rightpos < endpos)%nat then
             c ← getitem heap childpos;
             r ← getitem heap rightpos;
             Ok (if negb (HeapNode_lt c r) then rightpos else childpos)
           else Ok childpos);
        child ← getitem heap childpos;
        heap ← setitem heap pos child;
        _siftup_loop fuel' heap endpos childpos
      else Ok (heap, pos)
  end.

Definition _siftup (heap : list HeapNode) (pos : nat)
  : Res (list HeapNode) :=
  let endpos := length heap in
  let startpos := pos in
  newitem ← getitem heap pos;
  '(heap, pos) ← _siftup_loop (endpos - pos) heap endpos pos;
  heap ← setitem heap pos newitem;
  _siftdown heap startpos pos.

(** [heappush(heap, item)] *)
Definition heappush (heap : list HeapNode) (item : HeapNode)
  : Res (list HeapNode) :=
  let heap := heap ++ [item] in
  _siftdown heap 0 (length heap - 1).

(** [heappop(heap)]: the popped item and the heap left. *)
Definition heappop (heap : list HeapNode) : Res (HeapNode * list HeapNode) :=
  match last heap with
  | None => Raise IndexError                  (* pop from empty list *)
  | Some lastelt =>
      let heap := take (length heap - 1) heap in
      match heap with
      | [] => Ok (lastelt, heap)
      | returnitem :: _ =>
          heap ← setitem heap 0 lastelt;
          heap ← _siftup heap 0;
          Ok (returnitem, heap)
      end
  end.

End heapq.

(** ** The class [HuffmanCoding]

    The fields the methods read and update ([path] only names files). *)
Record HuffmanCoding : Type := mkHuffmanCoding {
  heap : list HeapNode;
  codes : gmap ascii (list ascii);
  reverse_mapping : gmap (list ascii) ascii
}.

(** [__init__] *)
Definition HuffmanCoding_init : HuffmanCoding :=
  {| heap := []; codes := ∅; reverse_mapping := ∅ |}.

Definition make_frequency_dict (text : str) : Res Dict.t :=
  for_in text
    (fun frequency ch =>
       let frequency :=
         if negb (Dict.contains frequency ch)
         then Dict.setitem frequency ch 0
         else frequency in
       n ← Dict.getitem frequency ch;
       Ok (Dict.setitem frequency ch (n + 1)))
    [].

Definition make_heap (self : HuffmanCoding) (frequency : Dict.t)
  : Res HuffmanCoding :=
  for_in (Dict.keys frequency)
    (fun self key =>
       f ← Dict.getitem frequency key;
       let node := HeapNode_init (Some key) f in
       h ← heapq.heappush (heap self) node;
       Ok {| heap := h; codes := codes self;
             reverse_mapping := reverse_mapping self |})
    self.

(** The [while] loop of [merge_codes]; each turn shortens the heap by one
    node. *)
Fixpoint merge_codes_loop (fuel : nat) (h : list HeapNode)
  : Res (list HeapNode) :=
  match fuel with
  | O => Ok h
  | S fuel' =>
      if decide (1 < length h)%nat then
        '(node1, h) ← heapq.heappop h;
        '(node2, h) ← heapq.heappop h;
        let merged :=
          {| char := None; freq := freq node1 + freq node2;
             left := Some node1; right := Some node2 |} in
        h ← heapq.heappush h merged;
        merge_codes_loop fuel' h
      else Ok h
  end.

Definition merge_codes (self : HuffmanCoding) : Res HuffmanCoding :=
  h ← merge_codes_loop (length (heap self)) (heap self);
  Ok {| heap := h; codes := codes self;
        reverse_mapping := reverse_mapping self |}.

(** [make_codes_helper]; [depth] is the number of nested calls the
    interpreter still allows (its recursion limit), and the second recursive
    call is on [node], as written.  The test [node == None] goes through
    [HeapNode.__eq__], which answers [False] for every node. *)
Fixpoint make_codes_helper (depth : nat) (self : HuffmanCoding)
    (node : option HeapNode) (current_code : str) : Res HuffmanCoding :=
  match depth with
  | O => Raise RecursionError
  | S depth' =>
      match node with
      | None => Ok self
      | Some n =>
          let self :=
            match char n with
            | Some c =>
                {| heap := heap self;
                   codes := <[c := current_code]> (codes self);
                   reverse_mapping :=
                     <[current_code := c]> (reverse_mapping self) |}
            | None => self
            end in
          self ← make_codes_helper depth' self (left n) (current_code ++ ["0"]);
          make_codes_helper depth' self node (current_code ++ ["1"])
      end
  end.

Definition make_codes (depth : nat) (self : HuffmanCoding)
  : Res HuffmanCoding :=
  '(root, h) ← heapq.heappop (heap self);
  let self := {| heap := h; codes := codes self;
                 reverse_mapping := reverse_mapping self |} in
  let current_code := [] in
  make_codes_helper depth self (Some root) current_code.

Definition get_encoded_text (self : HuffmanCoding) (text : str) : Res str :=
  for_in text
    (fun encoded_text character =>
       match codes self !! character with
       | Some code => Ok (encoded_text ++ code)
       | None => Raise (KeyError character)
       end)
    [].

Definition pad_encoded_text (encoded_text : str) : str :=
  let extra_padding := (8 - length encoded_text mod 8)%nat in
  let encoded_text :=
    Nat.iter extra_padding (fun e => e ++ ["0"]) encoded_text in
  let padded_info := Py.format_08b (Z.of_nat extra_padding) in
  padded_info ++ encoded_text.

(** [range(0, n, 8)] *)
Definition range_step8 (n : nat) : list nat :=
  (fun k => 8 * k)%nat <$> seq 0 ((n + 7) / 8).

(** [bytearray.append]: the value must be in [range(0, 256)]. *)
Definition bytearray_append (b : list Z) (v : Z) : Res (list Z) :=
  if decide (0 <= v < 256) then Ok (b ++ [v]) else Raise ValueError.

Definition get_byte_array (padded_encoded_text : str) : Res (list Z) :=
  for_in (range_step8 (length padded_encoded_text))
    (fun b i =>
       let byte := Py.slice padded_encoded_text i 8 in
       v ← Py.int2 byte;
       bytearray_append b v)
    [].

(** The local variables of [compress] once the text is read: [None] stands
    for a variable that is not assigned yet. *)
Record compress_locals : Type := mkLocals {
  local_text : str;
  local_frequency : option Dict.t;
  local_encode_text : option str;
  local_padding_encoded_text : option str;
  local_b : option (list Z)
}.

(** The body of [compress] from the text read from the file on: the local
    variables as they stand when the call ends (with an exception, the
    locals of the frame that the traceback holds), and the outcome, the
    bytes handed to [output.write] or the exception. *)
Definition compress_run (depth : nat) (self : HuffmanCoding) (file_text : str)
  : compress_locals * Res (list Z) :=
  let text := file_text in
  let text := Py.rstrip text in
  match make_frequency_dict text with
  | Raise e => (mkLocals text None None None None, Raise e)
  | Ok frequency =>
      match (self ← make_heap self frequency;
             self ← merge_codes self;
             make_codes depth self) with
      | Raise e => (mkLocals text (Some frequency) None None None, Raise e)
      | Ok self =>
          match get_encoded_text self text with
          | Raise e => (mkLocals text (Some frequency) None None None, Raise e)
          | Ok encode_text =>
              let padding_encoded_text := pad_encoded_text encode_text in
              match get_byte_array padding_encoded_text with
              | Raise e =>
                  (mkLocals text (Some frequency) (Some encode_text)
                     (Some padding_encoded_text) None,
                   Raise e)
              | Ok b =>
                  (mkLocals text (Some frequency) (Some encode_text)
                     (Some padding_encoded_text) (Some b),
                   Ok b)
              end
          end
      end
  end.

(** [compress], from the text read from the file to the bytes handed to
    [output.write]. *)
Definition compress (depth : nat) (self : HuffmanCoding) (file_text : str)
  : Res (list Z) :=
  (compress_run depth self file_text).2.

(** The content of the [.bin] file after [compress]: [open(output_path,
    'wb')] creates it empty before the text is read, and only [output.write]
    puts bytes in it. *)
Definition output_file (run : Res (list Z)) : list Z :=
  match run with
  | Ok b => b
  | Raise _ => []
  end.

Definition remove_padding (bit_string : str) : Res str :=
  let padded_info := Py.slice_to bit_string 8 in
  extra_padding ← Py.int2 padded_info;
  let bit_string := Py.slice_from bit_string 8 in
  let encoded_text := Py.slice_to bit_string (-1 * extra_padding) in
  Ok encoded_text.

(** [decode_text].  The [return] stands inside the body of the [for] loop,
    after the [if]; nothing follows the loop, so when the body never runs the
    function ends without [return] and yields Python's [None] (here
    [None]). *)
Definition decode_text (self : HuffmanCoding) (encoded_text : str)
  : option str :=
  let current_code : str := [] in
  let decoded_text : str := [] in
  for_in_return encoded_text
    (fun '(current_code, decoded_text) bit =>
       let current_code := current_code ++ [bit] in
       let '(current_code, decoded_text) :=
         match reverse_mapping self !! current_code with
         | Some character => ([], decoded_text ++ [character])
         | None => (current_code, decoded_text)
         end in
       Return (S := str * str) decoded_text)
    (current_code, decoded_text).

(** The loop of [decompress] that turns the bytes read from the file into
    [bit_string]. *)
Definition decompress_bit_string (file_bytes : list Z) : str :=
  foldl (fun bit_string byte =>
           let bits := Py.rjust (Py.bin byte) 8 "0" in
           bit_string ++ bits)
    [] file_bytes.

(** [output.write(decoded_text)] in [decompress]: the output file is opened
    with mode ['r'], so writing a [str] raises [io.UnsupportedOperation];
    [None] is refused before that, as not a [str], with [TypeError]. *)
Definition output_write (decoded_text : option str) : Res str :=
  match decoded_text with
  | None => Raise TypeError
  | Some _ => Raise UnsupportedOperation
  end.

(** [decompress].  [input_file] is the content of the file at [input_path],
    or [None] when there is no such file; [output_exists] tells whether the
    file at [output_path] exists.  Both are opened before anything is read,
    the input first, and an [open] for reading raises [FileNotFoundError] on
    a missing file.  The result would be the text written to the output. *)
Definition decompress (self : HuffmanCoding) (input_file : option (list Z))
    (output_exists : bool) : Res str :=
  match input_file with
  | None => Raise FileNotFoundError
  | Some file_bytes =>
      if negb output_exists then Raise FileNotFoundError
      else
        let bit_string := decompress_bit_string file_bytes in
        encoded_text ← remove_padding bit_string;
        let decoded_text := decode_text self encoded_text in
        output_write decoded_text
  end.

(** ** Properties of trees, stated as the program's data has them *)

(** Every node with children carries the sum of its two children's
    frequencies; a node has either no child or two. *)
Fixpoint freq_consistent (n : HeapNode) : bool :=
  match n with
  | mkHeapNode _ f (Some l) (Some r) =>
      (f =? freq l + freq r) && freq_consistent l && freq_consistent r
  | mkHeapNode _ _ None None => true
  | _ => false
  end.

(** The sum of the frequencies of the leaves below (or at) a node. *)
Fixpoint leaf_freq_sum (n : HeapNode) : Z :=
  match n with
  | mkHeapNode _ f None None => f
  | mkHeapNode _ _ l r =>
      match l with Some x => leaf_freq_sum x | None => 0 end
      + match r with Some x => leaf_freq_sum x | None => 0 end
  end.

(** The leaves below (or at) a node, left to right, each with its character
    and its frequency. *)
Fixpoint leaves (n : HeapNode) : list (option ascii * Z) :=
  match n with
  | mkHeapNode c f None None => [(c, f)]
  | mkHeapNode _ _ l r =>
      match l with Some x => leaves x | None => [] end
      ++ match r with Some x => leaves x | None => [] end
  end.

(** A property of a node's child, when there is one. *)
Definition on_child (P : HeapNode -> Prop) (child : option HeapNode) : Prop :=
  match child with
  | Some n => P n
  | None => True
  end.

(** The leaf that [make_heap] builds for an entry of the frequency
    dictionary. *)
Definition leaf_of (kv : ascii * Z) : HeapNode :=
  HeapNode_init (Some kv.1) kv.2.

(** The sum of a list of integers. *)
Definition total (l : list Z) : Z := foldr Z.add 0 l.

(** A code table for the two-symbol alphabet [a], [b], with its reverse
    mapping. *)
Definition table_ab : HuffmanCoding :=
  {| heap := [];
     codes := <["a" := py "0"]> (<["b" := py "1"]> ∅);
     reverse_mapping := <[py "0" := "a"]> (<[py "1" := "b"]> ∅) |}.

(** ** Further notions used to state what the methods do *)

(** The order [heapq] keeps in its list: no node is smaller (by [__lt__])
    than the node at its parent position [(i - 1) >> 1]. *)
Definition heap_ordered (h : list HeapNode) : bool :=
  forallb
    (fun i =>
       match h !! i, h !! ((i - 1) / 2)%nat with
       | Some child, Some parent => negb (HeapNode_lt child parent)
       | _, _ => true
       end)
    (seq 1 (length h - 1)).

(** The characters ['0'] and ['1']. *)
Definition is_bit (c : ascii) : bool :=
  match c with
  | "0" | "1" => true
  | _ => false
  end.

(** A string of ['0'] and ['1'] only. *)
Definition bit_string (s : str) : bool := forallb is_bit s.

(** * Checks on concrete values *)

Example int2_header : Py.int2 (py "00000100") = Ok 4.
Proof. reflexivity. Qed.
Example int2_prefixed : Py.int2 (py " -0b_1_0 ") = Ok (-2).
Proof. reflexivity. Qed.
Example int2_bad : Py.int2 (py "0000b101") = Raise ValueError.
Proof. reflexivity. Qed.
Example int2_empty : Py.int2 [] = Raise ValueError.
Proof. reflexivity. Qed.
Example int2_separator :
  Py.int2 [ascii_of_nat 28; "1"] = Raise ValueError
  /\ Py.int2 [ascii_of_nat 160; "1"; " "] = Ok 1.
Proof. split; reflexivity. Qed.
Example format_08b_4 : Py.format_08b 4 = py "00000100".
Proof. reflexivity. Qed.
Example bin_5 : Py.rjust (Py.bin 5) 8 "0" = py "0000b101".
Proof. reflexivity. Qed.
Example rstrip_ex : Py.rstrip (py " a b  ") = py " a b".
Proof. reflexivity. Qed.

Example frequency_aaabbc :
  make_frequency_dict (py "aaabbc") = Ok [("a", 3); ("b", 2); ("c", 1)].
Proof. reflexivity. Qed.

Example tree_aaabbc :
  (self ← make_heap HuffmanCoding_init [("a", 3); ("b", 2); ("c", 1)];
   self ← merge_codes self;
   Ok (heap self))
  = Ok [ {| char := None; freq := 6;
            left := Some (HeapNode_init (Some "a") 3);
            right := Some {| char := None; freq := 3;
                             left := Some (HeapNode_init (Some "c") 1);
                             right := Some (HeapNode_init (Some "b") 2) |} |} ].
Proof. reflexivity. Qed.

Example pad_9_bits :
  pad_encoded_text (py "000101011") = py "000001110001010110000000".
Proof. reflexivity. Qed.

Example pack_9_bits :
  get_byte_array (py "000001110001010110000000") = Ok [7; 21; 128].
Proof. reflexivity. Qed.

Example pad_8_bits :
  pad_encoded_text (py "00010101") = py "000010000001010100000000".
Proof. reflexivity. Qed.

(** * Python strings *)

Lemma slice_to_0 (s : str) : Py.slice_to s 0 = [].
Proof. reflexivity. Qed.

Lemma slice_to_nonneg (s : str) (n : nat) :
  Py.slice_to s (Z.of_nat n) = take n s.
Proof.
  unfold Py.slice_to. destruct (Z.ltb_spec (Z.of_nat n) 0) as [Hn|Hn]; [lia|].
  by rewrite Nat2Z.id.
Qed.

Lemma slice_to_neg (s : str) (n : nat) :
  (0 < n)%nat -> Py.slice_to s (-1 * Z.of_nat n) = take (length s - n) s.
Proof.
  intros Hn. unfold Py.slice_to.
  destruct (Z.ltb_spec (-1 * Z.of_nat n) 0) as [_|Hge]; [|lia].
  f_equal. lia.
Qed.

Lemma iter_append_zero (n : nat) (e : str) :
  Nat.iter n (fun e => e ++ ["0"]) e = e ++ replicate n "0".
Proof.
  induction n as [|n IH]; simpl.
  - by rewrite app_nil_r.
  - rewrite IH, <- app_assoc. f_equal.
    change ("0" :: replicate n "0") with (replicate (S n) "0").
    by rewrite replicate_S_end.
Qed.




Lemma rstrip_idemp (s : str) : Py.rstrip (Py.rstrip s) = Py.rstrip s.
Proof.
  induction s as [|a t IH]; simpl; [done|].
  destruct (Py.rstrip t) as [|c' t'] eqn:Ht.
  - destruct (Py.isspace a) eqn:Ha; simpl; [done|]. by rewrite Ha.
  - change (Py.rstrip (a :: c' :: t'))
      with (match Py.rstrip (c' :: t') with
            | [] => if Py.isspace a then [] else [a]
            | t'' => a :: t''
            end).
    by rewrite IH.
Qed.

(** * The padding header *)

Lemma format_08b_padding (p : nat) :
  (1 <= p <= 8)%nat ->
  length (Py.format_08b (Z.of_nat p)) = 8%nat
  /\ Py.int2 (Py.format_08b (Z.of_nat p)) = Ok (Z.of_nat p).
Proof.
  intros Hp.
  assert (Hcases : p = 1%nat \/ p = 2%nat \/ p = 3%nat \/ p = 4%nat
                   \/ p = 5%nat \/ p = 6%nat \/ p = 7%nat \/ p = 8%nat) by lia.
  repeat destruct Hcases as [->|Hcases]; try subst p; by vm_compute.
Qed.

Lemma extra_padding_range (L : nat) :
  (1 <= 8 - L mod 8 <= 8)%nat /\ ((L + (8 - L mod 8)) mod 8 = 0)%nat.
Proof.
  pose proof (Nat.mod_upper_bound L 8 ltac:(lia)) as Hlt.
  split; [lia|].
  rewrite (Nat.div_mod_eq L 8) at 1.
  replace (8 * (L / 8) + L mod 8 + (8 - L mod 8))%nat
    with ((1 + L / 8) * 8)%nat by lia.
  apply Nat.Div0.mod_mul.
Qed.

(** C2 as stated fails on the empty bit sequence: no padding count in 0..7
    describes what [pad_encoded_text] returns there (it pads with 8 bits). *)
Lemma pad_encoded_text_not_0_to_7 :
  ~ exists p : nat,
      (0 <= p <= 7)%nat
      /\ pad_encoded_text [] = Py.format_08b (Z.of_nat p) ++ [] ++ replicate p "0".
Proof.
  intros [p [Hp Heq]].
  assert (Hcases : p = 0%nat \/ p = 1%nat \/ p = 2%nat \/ p = 3%nat
                   \/ p = 4%nat \/ p = 5%nat \/ p = 6%nat \/ p = 7%nat) by lia.
  repeat destruct Hcases as [->|Hcases]; try subst p; by vm_compute in Heq.
Qed.

(** What [pad_encoded_text] returns: header, sequence, zero bits. *)
Lemma pad_encoded_text_shape (encoded_text : str) :
  let p := (8 - length encoded_text mod 8)%nat in
  pad_encoded_text encoded_text
  = Py.format_08b (Z.of_nat p) ++ encoded_text ++ replicate p "0".
Proof.
  intros p. unfold pad_encoded_text. fold p. by rewrite iter_append_zero.
Qed.

(** C2 (amended): for every encoded bit sequence of length L,
    [pad_encoded_text] uses the padding count p = 8 - L mod 8, which satisfies
    (L + p) mod 8 = 0 and 1 <= p <= 8 (so p is 8, not 0, when L is a multiple
    of 8); the result is the 8-bit header that reads back as p, then the
    sequence, then exactly p zero bits. *)
Theorem pad_encoded_text_spec (encoded_text : str) :
  let L := length encoded_text in
  let p := (8 - L mod 8)%nat in
  (1 <= p <= 8)%nat
  /\ ((L + p) mod 8 = 0)%nat
  /\ pad_encoded_text encoded_text
     = Py.format_08b (Z.of_nat p) ++ encoded_text ++ replicate p "0"
  /\ length (Py.format_08b (Z.of_nat p)) = 8%nat
  /\ Py.int2 (Py.format_08b (Z.of_nat p)) = Ok (Z.of_nat p).
Proof.
  intros L p.
  destruct (extra_padding_range L) as [Hp Hmod].
  destruct (format_08b_padding p Hp) as [Hlen Hint].
  repeat split; try done; try lia.
  apply pad_encoded_text_shape.
Qed.

(** * Removing the padding *)

(** C10: for every bit string whose first 8 bits read as the value 0,
    [remove_padding] returns the empty string: after the header is cut off,
    the slice [bit_string[:-0]] keeps nothing. *)
Theorem remove_padding_zero_header (bit_string : str) :
  Py.int2 (Py.slice_to bit_string 8) = Ok 0 ->
  remove_padding bit_string = Ok [].
Proof.
  intros H. unfold remove_padding. rewrite H. reflexivity.
Qed.

Lemma remove_padding_zero_header_witness :
  Py.int2 (Py.slice_to (py "0000000010110011") 8) = Ok 0
  /\ remove_padding (py "0000000010110011") = Ok [].
Proof.
  split; [reflexivity|].
  apply (remove_padding_zero_header (py "0000000010110011")). reflexivity.
Defined.

(** With a header of eight zero bits, whatever data follows is dropped. *)
Lemma remove_padding_zero_bits (data : str) :
  remove_padding (replicate 8 "0" ++ data) = Ok [].
Proof. reflexivity. Qed.

(** Padding added by [pad_encoded_text] is removed again. *)
Lemma remove_padding_pad_encoded_text (encoded_text : str) :
  remove_padding (pad_encoded_text encoded_text) = Ok encoded_text.
Proof.
  pose proof (pad_encoded_text_shape encoded_text) as Heq. cbv zeta in Heq.
  set (p := (8 - length encoded_text mod 8)%nat) in *.
  destruct (extra_padding_range (length encoded_text)) as [Hp _]. fold p in Hp.
  destruct (format_08b_padding p Hp) as [Hlen Hint].
  rewrite Heq. unfold remove_padding.
  change 8 with (Z.of_nat 8). rewrite slice_to_nonneg.
  rewrite take_app_length' by done. rewrite Hint.
  unfold mbind, Res_bind, Py.slice_from. rewrite drop_app_length' by done.
  rewrite slice_to_neg by lia. f_equal.
  rewrite length_app, length_replicate.
  replace (length encoded_text + p - p)%nat with (length encoded_text) by lia.
  by rewrite take_app_length.
Qed.

(** * The encoder *)

Section Encoder.
Variable self : HuffmanCoding.

(** The body of the loop of [get_encoded_text]. *)
Let body (encoded_text : str) (character : ascii) : Res str :=
  match codes self !! character with
  | Some code => Ok (encoded_text ++ code)
  | None => Raise (KeyError character)
  end.

Lemma encode_loop_ok (text : str) (cs : list str) (acc : str) :
  Forall2 (fun c code => codes self !! c = Some code) text cs ->
  for_in text body acc = Ok (acc ++ concat cs).
Proof.
  intros H. revert acc.
  induction H as [|c code text cs Hc _ IH]; intros acc; simpl.
  - by rewrite app_nil_r.
  - replace (body acc c) with (Ok (acc ++ code) : Res str)
      by (unfold body; by rewrite Hc).
    simpl. rewrite IH. by rewrite app_assoc.
Qed.

Lemma encode_loop_unknown (text : str) (acc : str) :
  Exists (fun c => codes self !! c = None) text ->
  exists c, c ∈ text /\ codes self !! c = None
            /\ for_in text body acc = Raise (KeyError c).
Proof.
  intros H. revert acc. induction text as [|a t IH]; intros acc.
  - by apply Exists_nil in H.
  - destruct (codes self !! a) as [code|] eqn:Ha.
    + apply Exists_cons in H as [H|H]; [congruence|].
      destruct (IH H (acc ++ code)) as (c & Hin & Hc & Hr).
      exists c. split; [by right|]. split; [done|].
      simpl. replace (body acc a) with (Ok (acc ++ code) : Res str)
        by (unfold body; by rewrite Ha).
      done.
    + exists a. split; [by left|]. split; [done|].
      simpl. replace (body acc a) with (Raise (KeyError a) : Res str)
        by (unfold body; by rewrite Ha).
      done.
Qed.

Lemma codes_of_known (text : str) :
  Forall (fun c => is_Some (codes self !! c)) text ->
  exists cs, Forall2 (fun c code => codes self !! c = Some code) text cs.
Proof.
  induction 1 as [|c t [code Hc] _ [cs IH]].
  - by exists [].
  - exists (code :: cs). by constructor.
Qed.

End Encoder.

(** C8: when the text holds a symbol that is absent from the code table,
    [get_encoded_text] raises (a [KeyError] naming an absent symbol of the
    text) and returns nothing; when every symbol of the text is in the table,
    it returns the concatenation, in input order, of the symbols' codes. *)
Theorem get_encoded_text_spec (self : HuffmanCoding) (text : str) :
  (Exists (fun c => codes self !! c = None) text ->
   exists c, c ∈ text /\ codes self !! c = None
             /\ get_encoded_text self text = Raise (KeyError c))
  /\ (Forall (fun c => is_Some (codes self !! c)) text ->
      exists cs, Forall2 (fun c code => codes self !! c = Some code) text cs
                 /\ get_encoded_text self text = Ok (concat cs)).
Proof.
  split.
  - intros H. apply (encode_loop_unknown self text [] H).
  - intros H. destruct (codes_of_known self text H) as [cs Hcs].
    exists cs. split; [done|]. apply (encode_loop_ok self text cs [] Hcs).
Qed.

Lemma get_encoded_text_spec_witness :
  (exists c, c ∈ py "abc" /\ codes table_ab !! c = None
             /\ get_encoded_text table_ab (py "abc") = Raise (KeyError c))
  /\ (exists cs,
        Forall2 (fun c code => codes table_ab !! c = Some code) (py "abba") cs
        /\ get_encoded_text table_ab (py "abba") = Ok (concat cs)).
Proof.
  split.
  - apply (proj1 (get_encoded_text_spec table_ab (py "abc"))).
    apply Exists_cons_tl, Exists_cons_tl, Exists_cons_hd. reflexivity.
  - apply (proj2 (get_encoded_text_spec table_ab (py "abba"))).
    repeat constructor; eexists; reflexivity.
Defined.

(** * The decoder *)

(** [decode_text] looks at the first bit only: what it returns has at most
    one symbol. *)
Lemma decode_text_at_most_one (self : HuffmanCoding) (encoded_text d : str) :
  decode_text self encoded_text = Some d -> (length d <= 1)%nat.
Proof.
  unfold decode_text. destruct encoded_text as [|bit rest]; [done|].
  cbn [for_in_return].
  destruct (reverse_mapping self !! ([] ++ [bit])); intros [= <-]; simpl; lia.
Qed.

Lemma decode_text_empty (self : HuffmanCoding) : decode_text self [] = None.
Proof. reflexivity. Qed.

(** On a bit string that is not empty, only the first bit counts. *)
Lemma decode_text_first_bit (self : HuffmanCoding) (bit : ascii) (rest : str) :
  decode_text self (bit :: rest)
  = Some (match reverse_mapping self !! [bit] with
          | Some character => [character]
          | None => []
          end).
Proof.
  unfold decode_text. cbn [for_in_return]. simpl.
  by destruct (reverse_mapping self !! [bit]).
Qed.

(** C1 at a failing input: with the table a -> 0, b -> 1 (and its reverse
    mapping), the text "ab" is encoded as "01", padded and unpadded back to
    "01", and decoded as "a": the second symbol is lost, because
    [decode_text] returns from inside its loop. *)
Theorem round_trip_loses_symbols :
  get_encoded_text table_ab (py "ab") = Ok (py "01")
  /\ remove_padding (pad_encoded_text (py "01")) = Ok (py "01")
  /\ decode_text table_ab (py "01") = Some (py "a")
  /\ Some (py "a") <> Some (py "ab").
Proof. repeat split; by vm_compute. Qed.

(** No text of two symbols or more comes back from [decode_text], whatever
    the table and the bits. *)
Lemma decode_text_never_long (self : HuffmanCoding) (encoded_text T : str) :
  (2 <= length T)%nat -> decode_text self encoded_text <> Some T.
Proof.
  intros HT H. apply decode_text_at_most_one in H. lia.
Qed.

(** * Byte packing *)

Lemma bin_has_b (n : Z) : "b" ∈ Py.rjust (Py.bin n) 8 "0".
Proof.
  unfold Py.rjust. apply elem_of_app. right.
  destruct n; simpl; set_solver.
Qed.

(** Whatever bytes are read, [decompress] builds a string that holds the
    letter b, so it is never a bit string. *)
Lemma decompress_bit_string_has_b (file_bytes : list Z) :
  file_bytes <> [] -> "b" ∈ decompress_bit_string file_bytes.
Proof.
  unfold decompress_bit_string. intros Hne.
  destruct file_bytes as [|b0 rest]; [done|]. simpl.
  assert (Hgen : forall l acc, "b" ∈ acc ->
    "b" ∈ foldl (fun bit_string byte =>
                   bit_string ++ Py.rjust (Py.bin byte) 8 "0") acc l).
  { induction l as [|x l IH]; intros acc Hacc; simpl; [done|].
    apply IH, elem_of_app. by left. }
  apply Hgen. apply bin_has_b.
Qed.

(** The compressor's side is sound: on every byte value, the eight bits
    that ['{0:08b}'.format] writes are read back by [int(_, 2)] as that
    value. *)
Lemma int2_format_08b (v : Z) :
  0 <= v < 256 ->
  length (Py.format_08b v) = 8%nat /\ Py.int2 (Py.format_08b v) = Ok v.
Proof.
  intros Hv.
  assert (Hall : Forall (fun v => length (Py.format_08b v) = 8%nat
                                  /\ Py.int2 (Py.format_08b v) = Ok v)
                   (seqZ 0 256)).
  { apply Forall_forall. intros x Hx.
    repeat (apply elem_of_cons in Hx as [->|Hx]; [by vm_compute|]).
    by apply elem_of_nil in Hx. }
  rewrite Forall_seqZ in Hall. apply Hall. lia.
Qed.

(** C7 at a failing input: the padded bit sequence of the code "01" is
    packed into the bytes 6 and 64; [decompress] turns them into
    "0000b1100b1000000", not into the sixteen bits that were packed
    ([bin] keeps its "0b" prefix, which [rjust] then pads around). *)
Theorem byte_packing_not_inverted :
  pad_encoded_text (py "01") = py "0000011001000000"
  /\ get_byte_array (py "0000011001000000") = Ok [6; 64]
  /\ decompress_bit_string [6; 64] = py "0000b1100b1000000"
  /\ py "0000b1100b1000000" <> py "0000011001000000".
Proof. repeat split; by vm_compute. Qed.

(** * Code generation *)

(** On every node, whatever the depth the interpreter allows,
    [make_codes_helper] ends in [RecursionError]: its second recursive call
    is on the node itself. *)
Lemma make_codes_helper_raises (depth : nat) (self : HuffmanCoding)
    (node : HeapNode) (current_code : str) :
  make_codes_helper depth self (Some node) current_code = Raise RecursionError.
Proof.
  revert self node current_code.
  induction depth as [|depth IH]; intros self node current_code; [done|].
  cbn [make_codes_helper].
  match goal with
  | |- context [make_codes_helper depth ?s (left node) ?c] =>
      destruct (make_codes_helper depth s (left node) c) as [self'|e] eqn:Hl
  end.
  - simpl. apply IH.
  - simpl. destruct (left node) as [l|] eqn:Hleft.
    + rewrite IH in Hl. by inversion Hl.
    + destruct depth; simpl in Hl; [by inversion Hl|discriminate].
Qed.

(** * The heap routines *)

Section ListSwap.
Context {A : Type}.
Implicit Types l : list A.

Lemma insert_cons_Permutation l j x y :
  l !! j = Some y -> y :: <[j:=x]> l ≡ₚ x :: l.
Proof.
  revert j. induction l as [|a t IH]; intros [|j] Hj; simplify_eq/=.
  - apply perm_swap.
  - rewrite (perm_swap a y). rewrite (IH j Hj). apply perm_swap.
Qed.

(** Writing [y], the element at [j], into position [i] and then [x] into
    position [j] gives the same elements as writing [x] into position [i]. *)
Lemma insert_swap_Permutation l i j x y :
  i <> j -> (i < length l)%nat -> l !! j = Some y ->
  <[j:=x]> (<[i:=y]> l) ≡ₚ <[i:=x]> l.
Proof.
  intros Hij Hi Hj.
  destruct (lookup_lt_is_Some_2 l i Hi) as [z Hz].
  assert (H1 : y :: <[j:=x]> (<[i:=y]> l) ≡ₚ x :: <[i:=y]> l).
  { apply insert_cons_Permutation. by rewrite list_lookup_insert_ne. }
  pose proof (insert_cons_Permutation l i y z Hz) as H2.
  pose proof (insert_cons_Permutation l i x z Hz) as H3.
  apply (Permutation_cons_inv (a := z)), (Permutation_cons_inv (a := y)).
  transitivity (x :: y :: l).
  - rewrite (perm_swap z y), H1, (perm_swap x z), H2. done.
  - rewrite H3. apply perm_swap.
Qed.

End ListSwap.

(** Unfold one monadic bind. *)
Ltac res_step := cbn [mbind Res_bind mret Res_ret].

Section HeapqSpec.
Import heapq.
Implicit Types heap : list HeapNode.

Lemma getitem_Some heap i x : heap !! i = Some x -> getitem heap i = Ok x.
Proof. unfold getitem. by intros ->. Qed.

Lemma setitem_lt heap i x :
  (i < length heap)%nat -> setitem heap i x = Ok (<[i:=x]> heap).
Proof. unfold setitem. intros H. by rewrite decide_True. Qed.

Lemma parentpos_lt (pos : nat) : (0 < pos)%nat -> ((pos - 1) / 2 < pos)%nat.
Proof.
  intros H. apply Nat.le_lt_trans with (pos - 1)%nat; [|lia].
  apply Nat.Div0.div_le_upper_bound. lia.
Qed.

(** [_siftdown]'s loop returns, and leaves in the heap the elements it had
    with [newitem] at [pos]. *)
Lemma _siftdown_loop_spec (fuel : nat) heap newitem startpos pos :
  (pos < length heap)%nat ->
  exists heap', _siftdown_loop fuel heap newitem startpos pos = Ok heap'
                /\ heap' ≡ₚ <[pos:=newitem]> heap.
Proof.
  revert heap pos. induction fuel as [|fuel IH]; intros heap pos Hpos; cbn [_siftdown_loop _siftup_loop].
  - rewrite setitem_lt by done. by eexists.
  - destruct (decide (startpos < pos)%nat) as [Hlt|_];
      [|rewrite setitem_lt by done; by eexists].
    assert (Hpp : ((pos - 1) / 2 < pos)%nat) by (apply parentpos_lt; lia).
    destruct (lookup_lt_is_Some_2 heap ((pos - 1) / 2)) as [parent Hparent];
      [lia|].
    rewrite (getitem_Some _ _ _ Hparent). res_step.
    destruct (HeapNode_lt newitem parent);
      [|rewrite setitem_lt by done; by eexists].
    rewrite setitem_lt by done. res_step.
    destruct (IH (<[pos:=parent]> heap) ((pos - 1) / 2)%nat) as (h' & -> & Hh').
    { rewrite length_insert. lia. }
    exists h'. split; [done|]. rewrite Hh'.
    apply insert_swap_Permutation; [lia|done|done].
Qed.

(** The fuel [pos] given to the loop is enough: more changes nothing. *)
Lemma _siftdown_loop_fuel (f1 f2 : nat) heap newitem startpos pos :
  (pos <= f1)%nat -> (pos <= f2)%nat ->
  _siftdown_loop f1 heap newitem startpos pos
  = _siftdown_loop f2 heap newitem startpos pos.
Proof.
  revert f2 heap pos.
  induction f1 as [|f1 IH]; intros [|f2] heap pos H1 H2; cbn [_siftdown_loop]; try done.
  - destruct (decide (startpos < pos)%nat); [lia|done].
  - destruct (decide (startpos < pos)%nat); [lia|done].
  - destruct (decide (startpos < pos)%nat) as [Hlt|]; [|done].
    assert (Hpp : ((pos - 1) / 2 < pos)%nat) by (apply parentpos_lt; lia).
    destruct (getitem heap ((pos - 1) / 2)) as [parent|]; res_step; [|done].
    destruct (HeapNode_lt newitem parent); [|done].
    destruct (setitem heap pos parent); res_step; [|done].
    apply IH; lia.
Qed.

Lemma _siftdown_spec heap startpos pos :
  (pos < length heap)%nat ->
  exists heap', _siftdown heap startpos pos = Ok heap' /\ heap' ≡ₚ heap.
Proof.
  intros Hpos. unfold _siftdown.
  destruct (lookup_lt_is_Some_2 heap pos Hpos) as [newitem Hnew].
  rewrite (getitem_Some _ _ _ Hnew). res_step.
  destruct (_siftdown_loop_spec pos heap newitem startpos pos Hpos)
    as (h' & -> & Hh').
  exists h'. split; [done|]. by rewrite Hh', list_insert_id.
Qed.

(** [_siftup]'s loop returns a heap and a position such that filling the
    hole there gives the elements of the heap it started from, filled at
    the first position. *)
Lemma _siftup_loop_spec (fuel : nat) heap pos :
  (pos < length heap)%nat ->
  exists heap' pos',
    _siftup_loop fuel heap (length heap) pos = Ok (heap', pos')
    /\ (pos' < length heap')%nat
    /\ length heap' = length heap
    /\ forall x, <[pos':=x]> heap' ≡ₚ <[pos:=x]> heap.
Proof.
  revert heap pos. induction fuel as [|fuel IH]; intros heap pos Hpos; cbn [_siftdown_loop _siftup_loop].
  - by exists heap, pos.
  - destruct (decide (2 * pos + 1 < length heap)%nat) as [Hc|_];
      [|by exists heap, pos].
    replace (pos + (pos + 0) + 1)%nat with (2 * pos + 1)%nat in * by lia.
    assert (Hchild : exists childpos,
      (if decide (2 * pos + 1 + 1 < length heap)%nat then
         c ← getitem heap (2 * pos + 1);
         r ← getitem heap (2 * pos + 1 + 1);
         Ok (if negb (HeapNode_lt c r) then (2 * pos + 1 + 1)%nat
             else (2 * pos + 1)%nat)
       else Ok (2 * pos + 1)%nat) = Ok childpos
      /\ (pos < childpos < length heap)%nat).
    { destruct (decide (2 * pos + 1 + 1 < length heap)%nat) as [Hr|_].
      - destruct (lookup_lt_is_Some_2 heap _ Hc) as [c Hcl].
        destruct (lookup_lt_is_Some_2 heap _ Hr) as [r Hrl].
        rewrite (getitem_Some _ _ _ Hcl), (getitem_Some _ _ _ Hrl). res_step.
        destruct (negb (HeapNode_lt c r)); eexists; (split; [done|lia]).
      - eexists; split; [done|lia]. }
    destruct Hchild as (childpos & -> & Hcp). res_step.
    destruct (lookup_lt_is_Some_2 heap childpos) as [child Hchild]; [lia|].
    rewrite (getitem_Some _ _ _ Hchild). res_step.
    rewrite setitem_lt by done. res_step.
    destruct (IH (<[pos:=child]> heap) childpos) as (h' & p' & Hrun & Hp' & Hlen & Hperm).
    { rewrite length_insert. lia. }
    rewrite length_insert in Hrun, Hlen. rewrite Hrun.
    exists h', p'. repeat split; try done.
    intros x. rewrite Hperm. apply insert_swap_Permutation; [lia|done|done].
Qed.

(** The fuel [endpos - pos] given to the loop is enough. *)
Lemma _siftup_loop_fuel (f1 f2 : nat) heap endpos pos :
  (endpos - pos <= f1)%nat -> (endpos - pos <= f2)%nat ->
  _siftup_loop f1 heap endpos pos = _siftup_loop f2 heap endpos pos.
Proof.
  revert f2 heap pos.
  induction f1 as [|f1 IH]; intros [|f2] heap pos H1 H2; cbn [_siftup_loop];
    try done.
  - destruct (decide (2 * pos + 1 < endpos)%nat); [lia|done].
  - destruct (decide (2 * pos + 1 < endpos)%nat); [lia|done].
  - destruct (decide (2 * pos + 1 < endpos)%nat) as [Hc|]; [|done].
    destruct (decide (2 * pos + 1 + 1 < endpos)%nat) as [Hr|].
    + destruct (getitem heap (2 * pos + 1)) as [c|]; res_step; [|done].
      destruct (getitem heap (2 * pos + 1 + 1)) as [r|]; res_step; [|done].
      destruct (negb (HeapNode_lt c r)).
      * destruct (getitem heap (2 * pos + 1 + 1)); res_step; [|done].
        destruct (setitem heap pos _); res_step; [|done]. apply IH; lia.
      * destruct (getitem heap (2 * pos + 1)); res_step; [|done].
        destruct (setitem heap pos _); res_step; [|done]. apply IH; lia.
    + res_step.
      destruct (getitem heap (2 * pos + 1)); res_step; [|done].
      destruct (setitem heap pos _); res_step; [|done]. apply IH; lia.
Qed.

Lemma _siftup_spec heap pos :
  (pos < length heap)%nat ->
  exists heap', _siftup heap pos = Ok heap' /\ heap' ≡ₚ heap.
Proof.
  intros Hpos. unfold _siftup.
  destruct (lookup_lt_is_Some_2 heap pos Hpos) as [newitem Hnew].
  rewrite (getitem_Some _ _ _ Hnew). res_step.
  destruct (_siftup_loop_spec (length heap - pos) heap pos Hpos)
    as (h' & p' & -> & Hp' & Hlen & Hperm). res_step.
  rewrite setitem_lt by done. res_step.
  destruct (_siftdown_spec (<[p':=newitem]> h') pos p') as (h'' & -> & Hh'').
  { by rewrite length_insert. }
  exists h''. split; [done|].
  by rewrite Hh'', Hperm, list_insert_id.
Qed.

(** [heappush] returns, and the new heap holds the item and the elements of
    the old one. *)
Lemma heappush_spec heap item :
  exists heap', heappush heap item = Ok heap' /\ heap' ≡ₚ item :: heap.
Proof.
  unfold heappush.
  destruct (_siftdown_spec (heap ++ [item]) 0 (length (heap ++ [item]) - 1))
    as (h' & -> & Hh').
  { rewrite length_app. simpl. lia. }
  exists h'. split; [done|]. rewrite Hh'. by rewrite Permutation_app_comm.
Qed.

(** [heappop] returns on a heap that is not empty, and the popped item and
    the heap left are the elements of the old heap. *)
Lemma heappop_spec heap :
  heap <> [] ->
  exists x heap', heappop heap = Ok (x, heap') /\ x :: heap' ≡ₚ heap.
Proof.
  intros Hne. unfold heappop.
  destruct (proj2 (last_is_Some heap) Hne) as [lastelt Hlast].
  rewrite Hlast. apply last_Some in Hlast as [l' ->].
  rewrite length_app. simpl length.
  replace (length l' + 1 - 1)%nat with (length l') by lia.
  rewrite take_app_length.
  destruct l' as [|returnitem t].
  - by exists lastelt, [].
  - rewrite setitem_lt by (simpl; lia). res_step.
    destruct (_siftup_spec (<[0%nat:=lastelt]> (returnitem :: t)) 0)
      as (h' & -> & Hh'); [simpl; lia|].
    exists returnitem, h'. split; [done|].
    rewrite Hh'. simpl. rewrite <- Permutation_cons_append. done.
Qed.

Lemma heappop_nil : heappop [] = Raise IndexError.
Proof. reflexivity. Qed.

End HeapqSpec.

(** * The frequency dictionary *)

Lemma total_cons (x : Z) (l : list Z) : total (x :: l) = x + total l.
Proof. reflexivity. Qed.

Lemma total_app (l1 l2 : list Z) : total (l1 ++ l2) = total l1 + total l2.
Proof. induction l1 as [|a l1 IH]; simpl; lia. Qed.

Lemma total_Permutation (l1 l2 : list Z) : l1 ≡ₚ l2 -> total l1 = total l2.
Proof. induction 1; simpl; lia. Qed.

Section DictFacts.
Implicit Types d : Dict.t.

Lemma contains_keys d k : Dict.contains d k = true <-> k ∈ Dict.keys d.
Proof.
  induction d as [|[k' v'] r IH]; simpl.
  - split; [done|]. by intros ?%elem_of_nil.
  - rewrite elem_of_cons. destruct (decide (k' = k)) as [->|Hne].
    + split; auto.
    + rewrite IH. split; [auto|]. intros [?|?]; [congruence|done].
Qed.

Lemma getitem_setitem d k v : Dict.getitem (Dict.setitem d k v) k = Ok v.
Proof.
  induction d as [|[k' v'] r IH]; simpl.
  - by rewrite decide_True.
  - destruct (decide (k' = k)) as [->|Hne]; simpl.
    + by rewrite decide_True.
    + by rewrite decide_False.
Qed.

Lemma setitem_new d k v :
  Dict.contains d k = false -> Dict.setitem d k v = d ++ [(k, v)].
Proof.
  induction d as [|[k' v'] r IH]; simpl; [done|].
  destruct (decide (k' = k)); [done|]. intros H. by rewrite IH.
Qed.

Lemma setitem_old d k v :
  Dict.contains d k = true ->
  exists v0, Dict.getitem d k = Ok v0
             /\ Dict.keys (Dict.setitem d k v) = Dict.keys d
             /\ total (Dict.values (Dict.setitem d k v))
                = total (Dict.values d) - v0 + v.
Proof.
  induction d as [|[k' v'] r IH]; simpl; [done|].
  destruct (decide (k' = k)) as [->|Hne].
  - intros _. exists v'. repeat split; simpl; lia.
  - intros H. destruct (IH H) as (v0 & Hg & Hk & Ht).
    exists v0. split; [done|]. unfold Dict.keys, Dict.values in *.
    rewrite !fmap_cons, !total_cons, Hk, Ht. simpl. split; [done|lia].
Qed.

(** One turn of the loop of [make_frequency_dict]. *)
Lemma frequency_step d ch :
  NoDup (Dict.keys d) ->
  let d1 := if negb (Dict.contains d ch) then Dict.setitem d ch 0 else d in
  exists n, Dict.getitem d1 ch = Ok n
            /\ NoDup (Dict.keys (Dict.setitem d1 ch (n + 1)))
            /\ total (Dict.values (Dict.setitem d1 ch (n + 1)))
               = total (Dict.values d) + 1.
Proof.
  intros Hnd. destruct (Dict.contains d ch) eqn:Hc; simpl.
  - destruct (setitem_old d ch 0 Hc) as (n & Hg & _).
    destruct (setitem_old d ch (n + 1) Hc) as (n' & Hg' & Hk & Ht).
    exists n. rewrite Hk. repeat split; try done.
    rewrite Ht. rewrite Hg in Hg'. injection Hg' as <-. lia.
  - exists 0. rewrite getitem_setitem. split; [done|].
    rewrite (setitem_new d ch 0 Hc).
    assert (Hc' : Dict.contains (d ++ [(ch, 0)]) ch = true).
    { apply contains_keys. unfold Dict.keys. rewrite fmap_app. set_solver. }
    destruct (setitem_old (d ++ [(ch, 0)]) ch (0 + 1) Hc')
      as (n' & Hg' & Hk & Ht).
    rewrite Hk, Ht. rewrite <- (setitem_new d ch 0 Hc) in Hg'.
    rewrite getitem_setitem in Hg'. injection Hg' as <-.
    unfold Dict.keys, Dict.values. rewrite !fmap_app, total_app. simpl.
    split; [|lia].
    apply NoDup_app. repeat split; [done| |apply NoDup_singleton].
    intros x Hx ->%list_elem_of_singleton.
    apply contains_keys in Hx. congruence.
Qed.

Lemma getitem_of_entries d :
  NoDup (Dict.keys d) ->
  Forall (fun kv => Dict.getitem d kv.1 = Ok kv.2) d.
Proof.
  induction d as [|[k v] r IH]; intros Hnd; [constructor|].
  unfold Dict.keys in Hnd. simpl in Hnd. apply NoDup_cons in Hnd as [Hk Hnd].
  constructor; simpl.
  - by rewrite decide_True.
  - specialize (IH Hnd). rewrite Forall_forall in IH |- *.
    intros [k' v'] Hin. simpl. rewrite decide_False; [by apply (IH (k', v'))|].
    intros ->. apply Hk. apply list_elem_of_fmap. by exists (k', v').
Qed.

End DictFacts.

(** [make_frequency_dict] always returns; its keys are distinct and its
    counts add up to the length of the text. *)
Lemma make_frequency_dict_spec (text : str) :
  exists frequency,
    make_frequency_dict text = Ok frequency
    /\ NoDup (Dict.keys frequency)
    /\ total (Dict.values frequency) = Z.of_nat (length text).
Proof.
  unfold make_frequency_dict.
  set (body := fun (frequency : Dict.t) (ch : ascii) => _).
  assert (Hgen : forall (t : str) (d : Dict.t), NoDup (Dict.keys d) ->
    exists d', for_in t body d = Ok d' /\ NoDup (Dict.keys d')
               /\ total (Dict.values d')
                  = total (Dict.values d) + Z.of_nat (length t)).
  { induction t as [|ch t IH]; intros d Hnd.
    - exists d. repeat split; [done|]. simpl. lia.
    - destruct (frequency_step d ch Hnd) as (n & Hg & Hnd' & Ht).
      cbv zeta in Hg, Hnd', Ht.
      set (d1 := if negb (Dict.contains d ch) then Dict.setitem d ch 0
                 else d) in *.
      cbn [for_in].
      replace (body d ch) with (Ok (Dict.setitem d1 ch (n + 1)) : Res Dict.t)
        by (unfold body; cbv zeta; fold d1; by rewrite Hg).
      res_step.
      destruct (IH _ Hnd') as (d' & Hrun & Hnd'' & Ht').
      exists d'. rewrite Hrun. repeat split; try done.
      rewrite Ht', Ht. simpl length. lia. }
  destruct (Hgen text [] (NoDup_nil_2)) as (d' & Hrun & Hnd & Ht).
  exists d'. repeat split; try done.
Qed.

(** * Building the heap and the tree *)

Lemma make_heap_entries (frequency : Dict.t) (entries : list (ascii * Z))
    (self : HuffmanCoding) :
  Forall (fun kv => Dict.getitem frequency kv.1 = Ok kv.2) entries ->
  exists self',
    for_in entries.*1
      (fun self key =>
         f ← Dict.getitem frequency key;
         let node := HeapNode_init (Some key) f in
         h ← heapq.heappush (heap self) node;
         Ok {| heap := h; codes := codes self;
               reverse_mapping := reverse_mapping self |})
      self = Ok self'
    /\ heap self' ≡ₚ (leaf_of <$> entries) ++ heap self
    /\ codes self' = codes self
    /\ reverse_mapping self' = reverse_mapping self.
Proof.
  intros H. revert self.
  match goal with |- context [for_in _ ?b _] => set (body := b) end.
  induction H as [|[k v] entries Hkv _ IH]; intros self.
  - by exists self.
  - rewrite fmap_cons. cbn [for_in]. simpl in Hkv. simpl fst.
    destruct (heappush_spec (heap self) (HeapNode_init (Some k) v))
      as (h & Hpush & Hh).
    assert (Hstep : body self k
                    = Ok {| heap := h; codes := codes self;
                            reverse_mapping := reverse_mapping self |}).
    { unfold body. rewrite Hkv. res_step. cbv zeta. by rewrite Hpush. }
    rewrite Hstep. res_step.
    destruct (IH {| heap := h; codes := codes self;
                    reverse_mapping := reverse_mapping self |})
      as (self' & -> & Hheap & Hc & Hr).
    exists self'. split; [done|]. split; [|done].
    rewrite Hheap. simpl. rewrite Hh. unfold leaf_of at 2. simpl.
    by rewrite Permutation_middle.
Qed.

(** [make_heap] returns on a dictionary with distinct keys, and adds to the
    heap one leaf for each entry. *)
Lemma make_heap_spec (self : HuffmanCoding) (frequency : Dict.t) :
  NoDup (Dict.keys frequency) ->
  exists self',
    make_heap self frequency = Ok self'
    /\ heap self' ≡ₚ (leaf_of <$> frequency) ++ heap self
    /\ codes self' = codes self
    /\ reverse_mapping self' = reverse_mapping self.
Proof.
  intros Hnd. apply make_heap_entries. by apply getitem_of_entries.
Qed.

Section MergeLoop.
(** An invariant [P] of the nodes that merging keeps, and a measure [m] of
    the nodes that merging adds up. *)
Variable P : HeapNode -> Prop.
Variable m : HeapNode -> Z.
Hypothesis P_merged : forall node1 node2, P node1 -> P node2 ->
  P {| char := None; freq := freq node1 + freq node2;
       left := Some node1; right := Some node2 |}.
Hypothesis m_merged : forall node1 node2,
  m {| char := None; freq := freq node1 + freq node2;
       left := Some node1; right := Some node2 |} = m node1 + m node2.
(** A listing [lv] of what a node holds, that merging concatenates. *)
Variable X : Type.
Variable lv : HeapNode -> list X.
Hypothesis lv_merged : forall node1 node2,
  lv {| char := None; freq := freq node1 + freq node2;
        left := Some node1; right := Some node2 |} = lv node1 ++ lv node2.

(** With fuel for every node but one, the loop of [merge_codes] runs until
    its condition fails: it returns a heap of at most one node, which
    satisfies [P] and has the measure of the whole heap it started from. *)
Lemma merge_codes_loop_spec (fuel : nat) (h : list HeapNode) :
  (length h <= S fuel)%nat ->
  Forall P h ->
  exists h',
    merge_codes_loop fuel h = Ok h'
    /\ length h' = Nat.min 1 (length h)
    /\ Forall P h'
    /\ total (m <$> h') = total (m <$> h)
    /\ h' ≫= lv ≡ₚ h ≫= lv.
Proof.
  revert h. induction fuel as [|fuel IH]; intros h Hlen HP.
  - exists h. repeat split; try done. lia.
  - cbn [merge_codes_loop].
    destruct (decide (1 < length h)%nat) as [Hgt|Hle];
      [|exists h; repeat split; try done; lia].
    destruct (heappop_spec h) as (node1 & h1 & -> & Hp1).
    { intros ->. simpl in Hgt. lia. }
    res_step.
    pose proof (Permutation_length Hp1) as Hl1. simpl in Hl1.
    destruct (heappop_spec h1) as (node2 & h2 & -> & Hp2).
    { intros ->. simpl in Hl1. lia. }
    res_step.
    pose proof (Permutation_length Hp2) as Hl2. simpl in Hl2.
    cbv zeta.
    set (merged := {| char := None; freq := freq node1 + freq node2;
                      left := Some node1; right := Some node2 |}).
    destruct (heappush_spec h2 merged) as (h3 & -> & Hp3).
    res_step.
    pose proof (Permutation_length Hp3) as Hl3. simpl in Hl3.
    rewrite <- Hp1, Forall_cons in HP. destruct HP as [HP1 HP].
    rewrite <- Hp2, Forall_cons in HP. destruct HP as [HP2 HP].
    destruct (IH h3) as (h' & -> & Hlen' & HP' & Hm' & Hlv').
    { lia. }
    { rewrite Hp3. constructor; [by apply P_merged|done]. }
    exists h'. split; [done|]. split; [lia|]. split; [done|].
    split; [|rewrite Hlv', Hp3, <- Hp1, <- Hp2, !bind_cons;
             unfold merged; by rewrite lv_merged, <- app_assoc].
    rewrite Hm'.
    rewrite (total_Permutation _ _ (fmap_Permutation m _ _ Hp3)).
    rewrite <- (total_Permutation _ _ (fmap_Permutation m _ _ Hp1)).
    rewrite !fmap_cons, !total_cons.
    rewrite <- (total_Permutation _ _ (fmap_Permutation m _ _ Hp2)).
    rewrite !fmap_cons, !total_cons. unfold merged. rewrite m_merged. lia.
Qed.

End MergeLoop.

(** More fuel than the length of the heap changes nothing. *)
Lemma merge_codes_loop_fuel (f1 f2 : nat) (h : list HeapNode) :
  (length h <= S f1)%nat -> (length h <= S f2)%nat ->
  merge_codes_loop f1 h = merge_codes_loop f2 h.
Proof.
  revert f2 h. induction f1 as [|f1 IH]; intros [|f2] h H1 H2;
    cbn [merge_codes_loop]; try done.
  - destruct (decide (1 < length h)%nat); [lia|done].
  - destruct (decide (1 < length h)%nat); [lia|done].
  - destruct (decide (1 < length h)%nat) as [Hgt|]; [|done].
    destruct (heappop_spec h) as (node1 & h1 & -> & Hp1).
    { intros ->. simpl in Hgt. lia. }
    res_step. pose proof (Permutation_length Hp1) as Hl1. simpl in Hl1.
    destruct (heappop_spec h1) as (node2 & h2 & -> & Hp2).
    { intros ->. simpl in Hl1. lia. }
    res_step. pose proof (Permutation_length Hp2) as Hl2. simpl in Hl2.
    cbv zeta.
    match goal with
    | |- context [heapq.heappush h2 ?x] =>
        destruct (heappush_spec h2 x) as (h3 & -> & Hp3)
    end.
    res_step. pose proof (Permutation_length Hp3) as Hl3. simpl in Hl3.
    apply IH; lia.
Qed.

(** The loop of [merge_codes] does not run on a heap of one node. *)
Lemma merge_codes_single (self : HuffmanCoding) (node : HeapNode) :
  heap self = [node] -> merge_codes self = Ok self.
Proof. intros H. unfold merge_codes. rewrite H. simpl. rewrite <- H. by destruct self. Qed.

(** * Trees *)

(** Induction on a node, with the property known of its children. *)
Lemma HeapNode_children_ind (P : HeapNode -> Prop) :
  (forall c f l r, on_child P l -> on_child P r -> P (mkHeapNode c f l r)) ->
  forall n, P n.
Proof.
  intros H. fix IH 1. intros [c f l r]. apply H.
  - destruct l as [x|]; simpl; [apply IH|exact I].
  - destruct r as [x|]; simpl; [apply IH|exact I].
Qed.

(** In a tree whose nodes carry the sum of their children's frequencies, a
    node's frequency is the sum of the frequencies of the leaves below it. *)
Lemma leaf_freq_sum_consistent (n : HeapNode) :
  freq_consistent n = true -> leaf_freq_sum n = freq n.
Proof.
  induction n as [c f l r IHl IHr] using HeapNode_children_ind.
  destruct l as [l|], r as [r|]; simpl; try done.
  intros [[Hf Hl%IHl]%andb_prop Hr%IHr]%andb_prop.
  apply Z.eqb_eq in Hf. simpl in *.
  destruct l, r; simpl in *; lia.
Qed.

(** * Frequencies and tree weights *)

Lemma leaf_of_consistent (kv : ascii * Z) : freq_consistent (leaf_of kv) = true.
Proof. reflexivity. Qed.

Lemma merged_consistent (node1 node2 : HeapNode) :
  freq_consistent node1 = true -> freq_consistent node2 = true ->
  freq_consistent {| char := None; freq := freq node1 + freq node2;
                     left := Some node1; right := Some node2 |} = true.
Proof. intros H1 H2. simpl. by rewrite Z.eqb_refl, H1, H2. Qed.

(** [merge_codes] returns, keeps the consistency of the trees in the heap
    and their total frequency, and leaves at most one tree. *)
Lemma merge_codes_spec (self : HuffmanCoding) :
  Forall (fun n => freq_consistent n = true) (heap self) ->
  exists self',
    merge_codes self = Ok self'
    /\ length (heap self') = Nat.min 1 (length (heap self))
    /\ Forall (fun n => freq_consistent n = true) (heap self')
    /\ total (freq <$> heap self') = total (freq <$> heap self)
    /\ heap self' ≫= leaves ≡ₚ heap self ≫= leaves.
Proof.
  intros HP. unfold merge_codes.
  destruct (merge_codes_loop_spec (fun n => freq_consistent n = true) freq
              merged_consistent (fun _ _ => eq_refl)
              _ leaves (fun _ _ => eq_refl)
              (length (heap self)) (heap self))
    as (h' & -> & Hlen & HP' & Hm & Hlv); [lia|done|].
  by eexists.
Qed.

Lemma leaves_of_entries (frequency : Dict.t) :
  (leaf_of <$> frequency) ≫= leaves
  = (fun kv => (Some kv.1, kv.2)) <$> frequency.
Proof.
  induction frequency as [|kv r IH]; [done|].
  rewrite !fmap_cons, bind_cons, IH. reflexivity.
Qed.

(** From a text to its tree: the three calls return, with the properties of
    the dictionary, of the heap of leaves and of the merged heap. *)
Lemma build_tree_spec (text : str) :
  exists frequency self1 self2,
    make_frequency_dict text = Ok frequency
    /\ total (Dict.values frequency) = Z.of_nat (length text)
    /\ make_heap HuffmanCoding_init frequency = Ok self1
    /\ merge_codes self1 = Ok self2
    /\ (length (heap self2) <= 1)%nat
    /\ Forall (fun root => freq_consistent root = true) (heap self2)
    /\ total (freq <$> heap self2) = Z.of_nat (length text)
    /\ heap self2 ≫= leaves ≡ₚ (fun kv => (Some kv.1, kv.2)) <$> frequency.
Proof.
  destruct (make_frequency_dict_spec text) as (frequency & Hf & Hnd & Ht).
  destruct (make_heap_spec HuffmanCoding_init frequency Hnd)
    as (self1 & H1 & Hheap1 & _).
  simpl in Hheap1. rewrite app_nil_r in Hheap1.
  destruct (merge_codes_spec self1) as (self2 & H2 & Hlen & HP & Hm & Hlv).
  { rewrite Hheap1. apply Forall_fmap, Forall_true. intros kv. reflexivity. }
  exists frequency, self1, self2.
  split; [done|]. split; [done|]. split; [done|]. split; [done|].
  split; [lia|]. split; [done|]. split.
  - rewrite Hm, (total_Permutation _ _ (fmap_Permutation freq _ _ Hheap1)).
    rewrite <- Ht. unfold Dict.values. f_equal.
    rewrite <- list_fmap_compose. by apply list_fmap_ext.
  - by rewrite Hlv, Hheap1, leaves_of_entries.
Qed.

(** C6: for every text, [make_frequency_dict] returns a dictionary whose
    counts add up to the length of the text; [make_heap] and [merge_codes]
    then return a heap of at most one tree, in which every node with children
    carries the sum of its two children's frequencies, so that the leaf
    frequencies of the tree add up to the frequency of its root, which is the
    length of the text; the leaves of the tree are the entries of the
    dictionary, each symbol with its count. *)
Theorem frequency_conservation (text : str) :
  exists frequency self1 self2,
    make_frequency_dict text = Ok frequency
    /\ total (Dict.values frequency) = Z.of_nat (length text)
    /\ make_heap HuffmanCoding_init frequency = Ok self1
    /\ merge_codes self1 = Ok self2
    /\ (length (heap self2) <= 1)%nat
    /\ Forall (fun root => freq_consistent root = true
                           /\ leaf_freq_sum root = freq root) (heap self2)
    /\ total (freq <$> heap self2) = Z.of_nat (length text)
    /\ heap self2 ≫= leaves ≡ₚ (fun kv => (Some kv.1, kv.2)) <$> frequency.
Proof.
  destruct (build_tree_spec text)
    as (frequency & self1 & self2 & Hf & Ht & H1 & H2 & Hlen & HP & Hm & Hlv).
  exists frequency, self1, self2.
  split; [done|]. split; [done|]. split; [done|]. split; [done|].
  split; [done|]. split; [|done].
  eapply Forall_impl; [exact HP|]. intros n Hn. split; [done|].
  by apply leaf_freq_sum_consistent.
Qed.

(** * Code generation on the heap *)

(** On a heap that is not empty, [make_codes] pops the root and then ends in
    [RecursionError]. *)
Lemma make_codes_raises (depth : nat) (self : HuffmanCoding) :
  heap self <> [] -> make_codes depth self = Raise RecursionError.
Proof.
  intros Hne. unfold make_codes.
  destruct (heappop_spec (heap self) Hne) as (root & h & -> & _).
  res_step. cbv zeta. apply make_codes_helper_raises.
Qed.

Lemma make_codes_empty (depth : nat) (self : HuffmanCoding) :
  heap self = [] -> make_codes depth self = Raise IndexError.
Proof. intros H. unfold make_codes. by rewrite H. Qed.

(** [compress] as a chain of calls. *)
Lemma compress_unfold (depth : nat) (self : HuffmanCoding) (file_text : str) :
  compress depth self file_text
  = (frequency ← make_frequency_dict (Py.rstrip file_text);
     self ← make_heap self frequency;
     self ← merge_codes self;
     self ← make_codes depth self;
     encode_text ← get_encoded_text self (Py.rstrip file_text);
     get_byte_array (pad_encoded_text encode_text)).
Proof.
  unfold compress, compress_run. cbv zeta.
  destruct (make_frequency_dict (Py.rstrip file_text)) as [frequency|];
    res_step; [|done].
  destruct (make_heap self frequency) as [self1|]; res_step; [|done].
  destruct (merge_codes self1) as [self2|]; res_step; [|done].
  destruct (make_codes depth self2) as [self3|]; res_step; [|done].
  destruct (get_encoded_text self3 (Py.rstrip file_text)) as [e|];
    res_step; [|done].
  by destruct (get_byte_array (pad_encoded_text e)).
Qed.

(** [compress] never hands bytes to the output: it ends in [IndexError]
    when the stripped text is empty and in [RecursionError] otherwise. *)
Lemma compress_raises (depth : nat) (file_text : str) :
  compress depth HuffmanCoding_init file_text
  = Raise (if decide (Py.rstrip file_text = []) then IndexError
           else RecursionError).
Proof.
  rewrite compress_unfold.
  destruct (decide (Py.rstrip file_text = [])) as [->|Hne]; [done|].
  destruct (build_tree_spec (Py.rstrip file_text))
    as (frequency & self1 & self2 & Hf & _ & Hh & Hm & Hlen & _ & Htot & _).
  rewrite Hf. res_step. rewrite Hh. res_step. rewrite Hm. res_step.
  rewrite make_codes_raises; [done|]. intros Hnil.
  rewrite Hnil in Htot. simpl in Htot.
  destruct (Py.rstrip file_text); simpl in *; [done|lia].
Qed.

(** C3, what the code does: whatever the depth the interpreter allows,
    [make_codes_helper] ends in [RecursionError] on every node, and so does
    [make_codes] on the tree built from any text that is not empty: the
    traversal does not terminate normally and no code table is returned. *)
Theorem code_generation_never_returns (depth : nat) (c : ascii) (text : str) :
  (forall self node current_code,
     make_codes_helper depth self (Some node) current_code
     = Raise RecursionError)
  /\ exists frequency self1 self2 root,
      make_frequency_dict (c :: text) = Ok frequency
      /\ make_heap HuffmanCoding_init frequency = Ok self1
      /\ merge_codes self1 = Ok self2
      /\ heap self2 = [root]
      /\ make_codes depth self2 = Raise RecursionError.
Proof.
  split; [intros; apply make_codes_helper_raises|].
  destruct (build_tree_spec (c :: text))
    as (frequency & self1 & self2 & Hf & _ & Hh & Hm & Hlen & _ & Htot & _).
  destruct (heap self2) as [|root [|]] eqn:Hheap; simpl in *; try lia.
  exists frequency, self1, self2, root. repeat split; try done.
  apply make_codes_raises. by rewrite Hheap.
Qed.

(** * A text of one symbol *)

(** C5 as stated fails on "aaaa": with the interpreter's usual limit of
    1000 nested calls, the run of [make_frequency_dict], [make_heap],
    [merge_codes] and [make_codes] returns no code table at all, so none in
    which the symbol has the code "0". *)
Lemma single_symbol_gets_no_code :
  ~ exists self',
      (frequency ← make_frequency_dict (py "aaaa");
       self ← make_heap HuffmanCoding_init frequency;
       self ← merge_codes self;
       make_codes 1000 self) = Ok self'
      /\ codes self' !! "a" = Some (py "0").
Proof.
  intros (self' & Hrun & _). revert Hrun.
  change (make_frequency_dict (py "aaaa")) with (Ok [("a", 4)] : Res Dict.t).
  res_step.
  change (make_heap HuffmanCoding_init [("a", 4)])
    with (Ok {| heap := [HeapNode_init (Some "a") 4]; codes := ∅;
                reverse_mapping := ∅ |}).
  res_step. rewrite (merge_codes_single _ (HeapNode_init (Some "a") 4)) by done.
  res_step. rewrite make_codes_raises by done. discriminate.
Qed.

(** C5 (amended): for every text whose frequency dictionary has exactly one
    entry, that entry counts the whole text, [make_heap] builds a heap of one
    leaf holding the symbol and its count, the loop of [merge_codes] does not
    run (the heap comes back unchanged whatever the fuel), and the root that
    [make_codes] pops is that single leaf. *)
Theorem single_symbol_tree (text : str) (c : ascii) (n : Z) :
  make_frequency_dict text = Ok [(c, n)] ->
  n = Z.of_nat (length text)
  /\ exists self,
      make_heap HuffmanCoding_init [(c, n)] = Ok self
      /\ heap self = [HeapNode_init (Some c) n]
      /\ merge_codes self = Ok self
      /\ (forall fuel, merge_codes_loop fuel (heap self) = Ok (heap self))
      /\ heapq.heappop (heap self) = Ok (HeapNode_init (Some c) n, []).
Proof.
  intros Hf. split.
  - destruct (make_frequency_dict_spec text) as (d & Hd & _ & Ht).
    rewrite Hf in Hd. injection Hd as <-. simpl in Ht. lia.
  - exists {| heap := [HeapNode_init (Some c) n]; codes := ∅;
              reverse_mapping := ∅ |}.
    split.
    { unfold make_heap. simpl. by rewrite decide_True. }
    repeat split; try done.
    intros [|fuel]; reflexivity.
Qed.

Lemma single_symbol_tree_witness :
  make_frequency_dict (py "aaaa") = Ok [("a", 4)]
  /\ 4 = Z.of_nat (length (py "aaaa"))
  /\ exists self,
      make_heap HuffmanCoding_init [("a", 4)] = Ok self
      /\ heap self = [HeapNode_init (Some "a") 4]
      /\ merge_codes self = Ok self
      /\ (forall fuel, merge_codes_loop fuel (heap self) = Ok (heap self))
      /\ heapq.heappop (heap self) = Ok (HeapNode_init (Some "a") 4, []).
Proof.
  split; [reflexivity|].
  apply (single_symbol_tree (py "aaaa") "a" 4). reflexivity.
Defined.

(** * The empty text *)

(** C4 as stated fails: on the empty text the tree builder raises nothing;
    [merge_codes] returns normally on the empty heap. *)
Lemma empty_text_passes_merge_codes :
  ~ exists e,
      (frequency ← make_frequency_dict [];
       self ← make_heap HuffmanCoding_init frequency;
       merge_codes self) = Raise e.
Proof. intros [e He]. vm_compute in He. discriminate. Qed.

(** C4 (amended): compressing the empty text fails.  [merge_codes] accepts
    the empty heap and returns it as it is; [make_codes] then pops from the
    empty heap, which raises [IndexError]; [compress] ends with that
    exception and writes no byte to the output file. *)
Theorem compress_empty_text (depth : nat) :
  (frequency ← make_frequency_dict [];
   self ← make_heap HuffmanCoding_init frequency;
   merge_codes self) = Ok HuffmanCoding_init
  /\ heapq.heappop (heap HuffmanCoding_init) = Raise IndexError
  /\ make_codes depth HuffmanCoding_init = Raise IndexError
  /\ compress depth HuffmanCoding_init [] = Raise IndexError
  /\ output_file (compress depth HuffmanCoding_init []) = [].
Proof. repeat split; reflexivity. Qed.

(** * Trailing whitespace *)

Example compress_locals_ex :
  local_text (compress_run 1000 HuffmanCoding_init (py " a b  ")).1
  = py " a b"
  /\ local_frequency (compress_run 1000 HuffmanCoding_init (py " a b  ")).1
     = Some [(" ", 2); ("a", 1); ("b", 1)].
Proof. split; by vm_compute. Qed.

(** A text of whitespace only is compressed as the empty text is. *)
Example compress_blank :
  compress 1000 HuffmanCoding_init (py "  ") = Raise IndexError
  /\ compress 1000 HuffmanCoding_init (py "a ") = Raise RecursionError.
Proof. split; by rewrite compress_raises. Qed.

(** * The order of the heap *)

Section HeapOrder.
Import heapq.
Implicit Types heap : list HeapNode.

Lemma heap_ordered_spec heap :
  heap_ordered heap = true <->
  forall i child parent, (0 < i)%nat ->
    heap !! i = Some child -> heap !! ((i - 1) / 2)%nat = Some parent ->
    freq parent <= freq child.
Proof.
  unfold heap_ordered. rewrite forallb_forall. split.
  - intros H i child parent Hi Hc Hp.
    specialize (H i). rewrite Hc, Hp in H.
    apply lookup_lt_Some in Hc.
    assert (Hlt : negb (HeapNode_lt child parent) = true)
      by (apply H, in_seq; lia).
    unfold HeapNode_lt in Hlt. lia.
  - intros H i Hi%in_seq.
    destruct (heap !! i) as [child|] eqn:Hc; [|done].
    destruct (heap !! ((i - 1) / 2)%nat) as [parent|] eqn:Hp; [|done].
    specialize (H i child parent ltac:(lia) Hc Hp).
    unfold HeapNode_lt. lia.
Qed.

(** The root of an ordered heap is a node of least frequency. *)
Lemma heap_ordered_root heap root :
  heap_ordered heap = true -> heap !! 0%nat = Some root ->
  forall n, n ∈ heap -> freq root <= freq n.
Proof.
  rewrite heap_ordered_spec. intros Hord Hroot n [i Hi]%list_elem_of_lookup.
  revert n Hi. induction i as [i IH] using lt_wf_ind. intros n Hi.
  destruct (decide (i = 0%nat)) as [->|Hne]; [by simplify_eq|].
  destruct (lookup_lt_is_Some_2 heap ((i - 1) / 2)%nat) as [p Hp].
  { apply lookup_lt_Some in Hi. lia. }
  etrans; [apply (IH ((i - 1) / 2)%nat ltac:(lia) p Hp)|].
  apply (Hord i n p); [lia|done|done].
Qed.

(** Filling the hole at [pos] with [newitem] gives an ordered heap, when the
    rest is ordered, the children of [pos] are not smaller than [newitem],
    and [newitem] is not smaller than the parent of [pos]. *)
Lemma fill_ordered heap newitem pos :
  (pos < length heap)%nat ->
  (forall i c p, (0 < i)%nat -> i <> pos -> ((i - 1) / 2)%nat <> pos ->
     heap !! i = Some c -> heap !! ((i - 1) / 2)%nat = Some p ->
     freq p <= freq c) ->
  (forall i c, (0 < i)%nat -> ((i - 1) / 2)%nat = pos ->
     heap !! i = Some c -> freq newitem <= freq c) ->
  (forall p, (0 < pos)%nat -> heap !! ((pos - 1) / 2)%nat = Some p ->
     freq p <= freq newitem) ->
  heap_ordered (<[pos:=newitem]> heap) = true.
Proof.
  intros Hpos HA HB HP. apply heap_ordered_spec. intros i c p Hi Hc Hp.
  destruct (decide (i = pos)) as [->|Hipos].
  - rewrite list_lookup_insert_eq in Hc by done. injection Hc as <-.
    rewrite list_lookup_insert_ne in Hp by lia. by apply HP.
  - rewrite list_lookup_insert_ne in Hc by done.
    destruct (decide (((i - 1) / 2)%nat = pos)) as [Hq|Hq].
    + rewrite Hq, list_lookup_insert_eq in Hp by done. injection Hp as <-.
      by apply (HB i).
    + rewrite list_lookup_insert_ne in Hp by done. by apply (HA i).
Qed.

(** [_siftdown]'s loop, from the root ([startpos] 0), restores the order
    when only [newitem] at [pos] may be out of place. *)
Lemma _siftdown_loop_ordered (fuel : nat) heap newitem pos :
  (pos < length heap)%nat -> (pos <= fuel)%nat ->
  (forall i c p, (0 < i)%nat -> i <> pos ->
     heap !! i = Some c -> heap !! ((i - 1) / 2)%nat = Some p ->
     freq p <= freq c) ->
  (forall i c, (0 < i)%nat -> ((i - 1) / 2)%nat = pos ->
     heap !! i = Some c -> freq newitem <= freq c) ->
  (forall i c g, (0 < pos)%nat -> (0 < i)%nat -> ((i - 1) / 2)%nat = pos ->
     heap !! i = Some c -> heap !! ((pos - 1) / 2)%nat = Some g ->
     freq g <= freq c) ->
  exists heap', _siftdown_loop fuel heap newitem 0 pos = Ok heap'
                /\ heap_ordered heap' = true.
Proof.
  revert heap pos.
  induction fuel as [|fuel IH]; intros heap pos Hpos Hfuel HA HB HC;
    cbn [_siftdown_loop].
  - rewrite setitem_lt by done. eexists; split; [done|].
    apply fill_ordered; [done| |done|intros; lia].
    intros i c p ? ? ?. by apply HA.
  - destruct (decide (0 < pos)%nat) as [Hlt|Hnlt].
    2:{ rewrite setitem_lt by done. eexists; split; [done|].
        apply fill_ordered; [done| |done|intros; lia].
        intros i c p ? ? ?. by apply HA. }
    destruct (lookup_lt_is_Some_2 heap ((pos - 1) / 2)%nat) as [parent Hparent];
      [lia|].
    rewrite (getitem_Some _ _ _ Hparent). res_step.
    destruct (HeapNode_lt newitem parent) eqn:Hcmp.
    2:{ rewrite setitem_lt by done. eexists; split; [done|].
        apply fill_ordered; [done| |done|].
        - intros i c p ? ? ?. by apply HA.
        - intros p _ Hp. rewrite Hparent in Hp. injection Hp as <-.
          unfold HeapNode_lt in Hcmp. lia. }
    rewrite setitem_lt by done. res_step.
    unfold HeapNode_lt in Hcmp.
    apply IH; [rewrite length_insert; lia|lia| | |].
    + intros i c p Hi Hne Hc Hp.
      destruct (decide (i = pos)) as [->|Hipos].
      * rewrite list_lookup_insert_eq in Hc by done. injection Hc as <-.
        rewrite list_lookup_insert_ne in Hp by lia.
        rewrite Hparent in Hp. injection Hp as <-. lia.
      * rewrite list_lookup_insert_ne in Hc by done.
        destruct (decide (((i - 1) / 2)%nat = pos)) as [Hq|Hq].
        -- rewrite Hq, list_lookup_insert_eq in Hp by done. injection Hp as <-.
           by apply (HC i c parent).
        -- rewrite list_lookup_insert_ne in Hp by done. by apply (HA i).
    + intros i c Hi Hq Hc.
      destruct (decide (i = pos)) as [->|Hipos].
      * rewrite list_lookup_insert_eq in Hc by done. injection Hc as <-. lia.
      * rewrite list_lookup_insert_ne in Hc by done.
        pose proof (HA i c parent Hi Hipos Hc) as H. rewrite Hq in H.
        specialize (H Hparent). lia.
    + intros i c g Hpp Hi Hq Hc Hg.
      rewrite list_lookup_insert_ne in Hg by lia.
      pose proof (HA ((pos - 1) / 2)%nat parent g Hpp ltac:(lia) Hparent Hg).
      destruct (decide (i = pos)) as [->|Hipos].
      * rewrite list_lookup_insert_eq in Hc by done. by injection Hc as <-.
      * rewrite list_lookup_insert_ne in Hc by done.
        pose proof (HA i c parent Hi Hipos Hc) as H'. rewrite Hq in H'.
        specialize (H' Hparent). lia.
Qed.

(** [heappush] keeps the heap ordered. *)
Lemma heappush_ordered heap item :
  heap_ordered heap = true ->
  exists heap', heappush heap item = Ok heap' /\ heap_ordered heap' = true.
Proof.
  rewrite heap_ordered_spec. intros Hord. unfold heappush, _siftdown.
  rewrite length_app. simpl length.
  replace (length heap + 1 - 1)%nat with (length heap) by lia.
  rewrite (getitem_Some _ _ item)
    by (rewrite lookup_app_r, Nat.sub_diag by lia; done).
  res_step.
  apply _siftdown_loop_ordered.
  - rewrite length_app. simpl. lia.
  - lia.
  - intros i c p Hi Hne Hc Hp.
    assert (i < length heap)%nat.
    { apply lookup_lt_Some in Hc. rewrite length_app in Hc. simpl in Hc. lia. }
    rewrite lookup_app_l in Hc, Hp by lia. by apply (Hord i).
  - intros i c Hi Hq Hc. apply lookup_lt_Some in Hc.
    rewrite length_app in Hc. simpl in Hc. lia.
  - intros i c g _ Hi Hq Hc. apply lookup_lt_Some in Hc.
    rewrite length_app in Hc. simpl in Hc. lia.
Qed.

End HeapOrder.

Section HeapOrderPop.
Import heapq.
Implicit Types heap : list HeapNode.

(** The child that [_siftup] moves up is a smallest child. *)
Lemma _siftup_choice heap pos :
  (2 * pos + 1 < length heap)%nat ->
  exists childpos child,
    (if decide (2 * pos + 1 + 1 < length heap)%nat then
       c ← getitem heap (2 * pos + 1);
       r ← getitem heap (2 * pos + 1 + 1);
       Ok (if negb (HeapNode_lt c r) then (2 * pos + 1 + 1)%nat
           else (2 * pos + 1)%nat)
     else Ok (2 * pos + 1)%nat) = Ok childpos
    /\ (2 * pos + 1 <= childpos <= 2 * pos + 2)%nat
    /\ heap !! childpos = Some child
    /\ forall i c, (2 * pos + 1 <= i <= 2 * pos + 2)%nat ->
         heap !! i = Some c -> freq child <= freq c.
Proof.
  intros Hc.
  destruct (lookup_lt_is_Some_2 heap _ Hc) as [c Hcl].
  destruct (decide (2 * pos + 1 + 1 < length heap)%nat) as [Hr|Hr].
  - destruct (lookup_lt_is_Some_2 heap _ Hr) as [r Hrl].
    rewrite (getitem_Some _ _ _ Hcl), (getitem_Some _ _ _ Hrl). res_step.
    unfold HeapNode_lt. destruct (Z.ltb_spec (freq c) (freq r)); simpl.
    + exists (2 * pos + 1)%nat, c. repeat split; try done; try lia.
      intros i x Hi Hx.
      assert (i = (2 * pos + 1)%nat \/ i = (2 * pos + 1 + 1)%nat) as [->| ->]
        by lia; simplify_eq; lia.
    + exists (2 * pos + 1 + 1)%nat, r. repeat split; try done; try lia.
      intros i x Hi Hx.
      assert (i = (2 * pos + 1)%nat \/ i = (2 * pos + 1 + 1)%nat) as [->| ->]
        by lia; simplify_eq; lia.
  - exists (2 * pos + 1)%nat, c. repeat split; try done; try lia.
    intros i x Hi Hx. apply lookup_lt_Some in Hx as Hlt.
    assert (i = (2 * pos + 1)%nat) as -> by lia. simplify_eq. lia.
Qed.

(** [_siftup]'s loop takes the hole at [pos] down to a leaf position and
    keeps the order of the nodes around it. *)
Lemma _siftup_loop_ordered (fuel : nat) heap pos :
  (pos < length heap)%nat -> (length heap - pos <= fuel)%nat ->
  (forall i c p, (0 < i)%nat -> i <> pos -> ((i - 1) / 2)%nat <> pos ->
     heap !! i = Some c -> heap !! ((i - 1) / 2)%nat = Some p ->
     freq p <= freq c) ->
  (forall i c g, (0 < pos)%nat -> (0 < i)%nat -> ((i - 1) / 2)%nat = pos ->
     heap !! i = Some c -> heap !! ((pos - 1) / 2)%nat = Some g ->
     freq g <= freq c) ->
  exists heap' pos',
    _siftup_loop fuel heap (length heap) pos = Ok (heap', pos')
    /\ (pos' < length heap')%nat
    /\ (length heap' <= 2 * pos' + 1)%nat
    /\ (forall i c p, (0 < i)%nat -> i <> pos' -> ((i - 1) / 2)%nat <> pos' ->
          heap' !! i = Some c -> heap' !! ((i - 1) / 2)%nat = Some p ->
          freq p <= freq c).
Proof.
  revert heap pos.
  induction fuel as [|fuel IH]; intros heap pos Hpos Hfuel HA HC; [lia|].
  cbn [_siftup_loop].
  replace (pos + (pos + 0) + 1)%nat with (2 * pos + 1)%nat in * by lia.
  destruct (decide (2 * pos + 1 < length heap)%nat) as [Hc|Hc].
  2:{ exists heap, pos. repeat split; try done. lia. }
  destruct (_siftup_choice heap pos Hc)
    as (childpos & child & -> & Hcp & Hchild & Hmin).
  res_step. rewrite (getitem_Some _ _ _ Hchild). res_step.
  rewrite setitem_lt by done. res_step.
  apply lookup_lt_Some in Hchild as Hcplt.
  destruct (IH (<[pos:=child]> heap) childpos)
    as (h' & p' & Hrun & Hp' & Hleaf & HA').
  - rewrite length_insert. lia.
  - rewrite length_insert. lia.
  - intros i c p Hi Hne Hq Hc' Hp.
    destruct (decide (i = pos)) as [->|Hipos].
    + rewrite list_lookup_insert_eq in Hc' by done. injection Hc' as <-.
      rewrite list_lookup_insert_ne in Hp by lia.
      apply (HC childpos child p); [lia|lia|lia|done|done].
    + rewrite list_lookup_insert_ne in Hc' by done.
      destruct (decide (((i - 1) / 2)%nat = pos)) as [Hq'|Hq'].
      * rewrite Hq', list_lookup_insert_eq in Hp by done. injection Hp as <-.
        apply (Hmin i); [lia|done].
      * rewrite list_lookup_insert_ne in Hp by done. by apply (HA i).
  - intros i c g _ Hi Hq Hc' Hg.
    replace ((childpos - 1) / 2)%nat with pos in Hg by lia.
    rewrite list_lookup_insert_eq in Hg by done. injection Hg as <-.
    rewrite list_lookup_insert_ne in Hc' by lia.
    apply (HA i c child); [done|lia|lia|done|].
    by rewrite Hq.
  - rewrite length_insert in Hrun. rewrite Hrun.
    exists h', p'. repeat split; done.
Qed.

(** [_siftup] from the root restores the order when only the root may be
    out of place. *)
Lemma _siftup_ordered heap :
  heap <> [] ->
  (forall i c p, (0 < i)%nat -> ((i - 1) / 2)%nat <> 0%nat ->
     heap !! i = Some c -> heap !! ((i - 1) / 2)%nat = Some p ->
     freq p <= freq c) ->
  exists heap', _siftup heap 0 = Ok heap' /\ heap_ordered heap' = true.
Proof.
  intros Hne HA. unfold _siftup.
  assert (Hpos : (0 < length heap)%nat) by (destruct heap; simpl; [done|lia]).
  destruct (lookup_lt_is_Some_2 heap 0 Hpos) as [newitem Hnew].
  rewrite (getitem_Some _ _ _ Hnew). res_step.
  destruct (_siftup_loop_ordered (length heap - 0) heap 0 Hpos ltac:(lia))
    as (h' & p' & -> & Hp' & Hleaf & HA').
  { intros i c p Hi _ Hq. by apply HA. }
  { intros; lia. }
  res_step. rewrite setitem_lt by done. res_step.
  unfold _siftdown.
  rewrite (getitem_Some _ _ newitem) by (by rewrite list_lookup_insert_eq).
  res_step.
  apply _siftdown_loop_ordered.
  - by rewrite length_insert.
  - lia.
  - intros i c p Hi Hne' Hc Hp.
    rewrite list_lookup_insert_ne in Hc by done.
    apply lookup_lt_Some in Hc as Hlt.
    rewrite list_lookup_insert_ne in Hp by lia.
    apply (HA' i); [done|done|lia|done|done].
  - intros i c Hi Hq Hc. apply lookup_lt_Some in Hc.
    rewrite length_insert in Hc. lia.
  - intros i c g _ Hi Hq Hc. apply lookup_lt_Some in Hc.
    rewrite length_insert in Hc. lia.
Qed.

(** [heappop] on an ordered heap returns its root, a node of least
    frequency, and leaves an ordered heap. *)
Lemma heappop_ordered heap :
  heap_ordered heap = true -> heap <> [] ->
  exists x heap',
    heappop heap = Ok (x, heap')
    /\ heap_ordered heap' = true
    /\ x :: heap' ≡ₚ heap
    /\ Forall (fun n => freq x <= freq n) heap'.
Proof.
  intros Hord Hne.
  destruct (heappop_spec heap Hne) as (x & h' & Hrun & Hperm).
  exists x, h'. split; [done|].
  assert (Hx : heap !! 0%nat = Some x /\ heap_ordered h' = true).
  { revert Hrun. unfold heappop.
    destruct (proj2 (last_is_Some heap) Hne) as [lastelt Hlast].
    rewrite Hlast. apply last_Some in Hlast as [l' ->].
    rewrite length_app. simpl length.
    replace (length l' + 1 - 1)%nat with (length l') by lia.
    rewrite take_app_length.
    destruct l' as [|returnitem t]; [by intros [= <- <-]|].
    rewrite setitem_lt by (simpl; lia). res_step.
    destruct (_siftup_ordered (<[0%nat:=lastelt]> (returnitem :: t)))
      as (h'' & -> & Hord''); [done| |by intros [= <- <-]].
    rewrite heap_ordered_spec in Hord.
    intros i c p Hi Hq Hc Hp.
    rewrite list_lookup_insert_ne in Hc, Hp by lia.
    apply lookup_lt_Some in Hc as Hlt.
    apply (Hord i c p Hi); rewrite lookup_app_l; try done.
    apply lookup_lt_Some in Hp. done. }
  destruct Hx as [Hroot Hord']. split; [done|]. split; [done|].
  apply Forall_forall. intros n Hn.
  apply (heap_ordered_root heap x Hord Hroot). rewrite <- Hperm. by right.
Qed.

End HeapOrderPop.

(** * More on the methods *)

Lemma for_in_app {A S : Type} (l1 l2 : list A) (body : S -> A -> Res S) (s : S) :
  for_in (l1 ++ l2) body s = for_in l1 body s ≫= for_in l2 body.
Proof.
  revert s. induction l1 as [|x l1 IH]; intros s; [done|].
  cbn [app for_in]. destruct (body s x); res_step; [apply IH|done].
Qed.

Section DictMore.
Implicit Types d : Dict.t.

Lemma contains_getitem d k :
  Dict.contains d k
  = match Dict.getitem d k with Ok _ => true | Raise _ => false end.
Proof.
  induction d as [|[k' v'] r IH]; simpl; [done|].
  by destruct (decide (k' = k)).
Qed.

Lemma getitem_setitem_ne d k k' v :
  k <> k' -> Dict.getitem (Dict.setitem d k v) k' = Dict.getitem d k'.
Proof.
  intros Hne. induction d as [|[k0 v0] r IH]; simpl.
  - by rewrite decide_False.
  - destruct (decide (k0 = k)) as [->|Hk0]; simpl.
    + by rewrite !decide_False.
    + destruct (decide (k0 = k')); [done|apply IH].
Qed.

Lemma getitem_missing d k e :
  Dict.getitem d k = Raise e -> e = KeyError k.
Proof.
  induction d as [|[k0 v0] r IH]; simpl; [by intros [= <-]|].
  destruct (decide (k0 = k)); [done|apply IH].
Qed.

Lemma keys_setitem d k v :
  Dict.keys (Dict.setitem d k v)
  = if Dict.contains d k then Dict.keys d else Dict.keys d ++ [k].
Proof.
  unfold Dict.keys. induction d as [|[k0 v0] r IH]; [done|].
  cbn [Dict.setitem Dict.contains].
  destruct (decide (k0 = k)) as [->|Hk0]; [done|].
  rewrite !fmap_cons, IH. by destruct (Dict.contains r k).
Qed.

End DictMore.

(** The body of the loop of [make_frequency_dict], on a dictionary that
    holds the counts of the text read so far. *)
Lemma frequency_count_step (t : str) (d : Dict.t) (ch : ascii) :
  Dict.keys d = reverse (remove_dups (reverse t)) ->
  (forall c, Dict.getitem d c
             = if decide (c ∈ t) then Ok (Z.of_nat (count_occ ascii_dec t c))
               else Raise (KeyError c)) ->
  let d1 := if negb (Dict.contains d ch) then Dict.setitem d ch 0 else d in
  exists n,
    Dict.getitem d1 ch = Ok n
    /\ Dict.keys (Dict.setitem d1 ch (n + 1))
       = reverse (remove_dups (reverse (t ++ [ch])))
    /\ forall c, Dict.getitem (Dict.setitem d1 ch (n + 1)) c
                 = if decide (c ∈ t ++ [ch])
                   then Ok (Z.of_nat (count_occ ascii_dec (t ++ [ch]) c))
                   else Raise (KeyError c).
Proof.
  intros Hkeys Hget d1.
  assert (Hrev : reverse (remove_dups (reverse (t ++ [ch])))
                 = if decide (ch ∈ t) then reverse (remove_dups (reverse t))
                   else reverse (remove_dups (reverse t)) ++ [ch]).
  { rewrite reverse_app, reverse_singleton. simpl.
    repeat case_decide; try done.
    - exfalso. by rewrite elem_of_reverse in *.
    - exfalso. by rewrite elem_of_reverse in *.
    - by rewrite reverse_cons. }
  assert (Hcount : forall c, count_occ ascii_dec (t ++ [ch]) c
                   = (count_occ ascii_dec t c
                      + if decide (ch = c) then 1 else 0)%nat).
  { intros c. rewrite count_occ_app. simpl.
    destruct (ascii_dec ch c), (decide (ch = c)); done. }
  assert (Hc : Dict.contains d ch = if decide (ch ∈ t) then true else false).
  { rewrite contains_getitem, Hget. by destruct (decide (ch ∈ t)). }
  subst d1. rewrite Hc, Hrev.
  destruct (decide (ch ∈ t)) as [Hin|Hin]; cbn [negb].
  - exists (Z.of_nat (count_occ ascii_dec t ch)).
    split; [by rewrite Hget, decide_True|].
    split; [by rewrite keys_setitem, Hc|].
    intros c. rewrite Hcount. destruct (decide (ch = c)) as [->|Hne].
    + rewrite getitem_setitem, decide_True
        by (apply elem_of_app; right; apply list_elem_of_singleton; done). f_equal. lia.
    + rewrite getitem_setitem_ne, Hget by done.
      destruct (decide (c ∈ t)) as [Hct|Hct].
      * rewrite decide_True by (apply elem_of_app; by left).
        do 2 f_equal. lia.
      * rewrite decide_False; [done|].
        intros [?|?%list_elem_of_singleton]%elem_of_app; congruence.
  - exists 0. split; [by rewrite getitem_setitem|].
    split.
    { rewrite keys_setitem, contains_getitem, getitem_setitem.
      by rewrite keys_setitem, Hc, Hkeys. }
    intros c. rewrite Hcount. destruct (decide (ch = c)) as [->|Hne].
    + rewrite getitem_setitem, decide_True
        by (apply elem_of_app; right; apply list_elem_of_singleton; done).
      rewrite (proj1 (count_occ_not_In ascii_dec t c)); [done|].
      by rewrite <- list_elem_of_In.
    + rewrite !getitem_setitem_ne, Hget by done.
      destruct (decide (c ∈ t)) as [Hct|Hct].
      * rewrite decide_True by (apply elem_of_app; by left).
        do 2 f_equal. lia.
      * rewrite decide_False; [done|].
        intros [?|?%list_elem_of_singleton]%elem_of_app; congruence.
Qed.

(** [make_frequency_dict] counts: its keys are in the order of first
    occurrence, and a lookup gives the number of occurrences. *)
Lemma make_frequency_dict_counting (text : str) :
  exists frequency,
    make_frequency_dict text = Ok frequency
    /\ Dict.keys frequency = reverse (remove_dups (reverse text))
    /\ forall c, Dict.getitem frequency c
                 = if decide (c ∈ text)
                   then Ok (Z.of_nat (count_occ ascii_dec text c))
                   else Raise (KeyError c).
Proof.
  unfold make_frequency_dict.
  set (body := fun (frequency : Dict.t) (ch : ascii) => _).
  induction text as [|ch t IH] using rev_ind.
  - exists []. repeat split.
  - destruct IH as (d & Hrun & Hkeys & Hget).
    rewrite for_in_app, Hrun. res_step. cbn [for_in].
    destruct (frequency_count_step t d ch Hkeys Hget) as (n & Hn & Hk & Hg).
    cbv zeta in Hn, Hk, Hg.
    set (d1 := if negb (Dict.contains d ch) then Dict.setitem d ch 0
               else d) in *.
    replace (body d ch) with (Ok (Dict.setitem d1 ch (n + 1)) : Res Dict.t)
      by (unfold body; cbv zeta; fold d1; by rewrite Hn).
    res_step. by eexists.
Qed.

(** X1: for every text, [make_frequency_dict] returns a dictionary whose
    keys are the distinct characters of the text in the order of their first
    occurrence, and in which looking up a character gives the number of
    times it occurs in the text, or [KeyError] when it does not occur. *)
Theorem make_frequency_dict_counts (text : str) :
  exists frequency,
    make_frequency_dict text = Ok frequency
    /\ Dict.keys frequency = reverse (remove_dups (reverse text))
    /\ NoDup (Dict.keys frequency)
    /\ forall c, Dict.getitem frequency c
                 = if decide (c ∈ text)
                   then Ok (Z.of_nat (count_occ ascii_dec text c))
                   else Raise (KeyError c).
Proof.
  destruct (make_frequency_dict_counting text)
    as (frequency & Hrun & Hkeys & Hget).
  exists frequency. repeat split; try done.
  rewrite Hkeys, reverse_Permutation. apply NoDup_remove_dups.
Qed.

(** * What [compress] works on *)



(** [make_heap]'s loop keeps the heap ordered. *)
Lemma make_heap_entries_ordered (frequency : Dict.t)
    (entries : list (ascii * Z)) (self self' : HuffmanCoding) :
  heap_ordered (heap self) = true ->
  for_in entries.*1
    (fun self key =>
       f ← Dict.getitem frequency key;
       let node := HeapNode_init (Some key) f in
       h ← heapq.heappush (heap self) node;
       Ok {| heap := h; codes := codes self;
             reverse_mapping := reverse_mapping self |})
    self = Ok self' ->
  heap_ordered (heap self') = true.
Proof.
  match goal with |- context [for_in _ ?b _] => set (body := b) end.
  revert self. induction entries as [|[k v] entries IH]; intros self Hord.
  - by intros [= <-].
  - rewrite fmap_cons. cbn [for_in]. simpl fst.
    destruct (body self k) as [self1|e] eqn:Hstep; res_step;
      [|intros; discriminate].
    apply IH. revert Hstep. unfold body.
    destruct (Dict.getitem frequency k) as [f|]; res_step;
      [|intros; discriminate].
    cbv zeta.
    destruct (heappush_ordered (heap self) (HeapNode_init (Some k) f) Hord)
      as (h & -> & Hh).
    res_step. by intros [= <-].
Qed.

(** X2: on a dictionary with distinct keys, [make_heap] returns; the heap
    it leaves holds the nodes it held before and one leaf for each entry of
    the dictionary, and is ordered (no node is smaller than its parent) when
    it was before; the code tables are not touched. *)
Theorem make_heap_builds_ordered_heap
    (self : HuffmanCoding) (frequency : Dict.t) :
  NoDup (Dict.keys frequency) ->
  heap_ordered (heap self) = true ->
  exists self',
    make_heap self frequency = Ok self'
    /\ heap self' ≡ₚ (leaf_of <$> frequency) ++ heap self
    /\ heap_ordered (heap self') = true
    /\ codes self' = codes self
    /\ reverse_mapping self' = reverse_mapping self.
Proof.
  intros Hnd Hord.
  destruct (make_heap_spec self frequency Hnd) as (self' & Hrun & Hp & Hc & Hr).
  exists self'. repeat split; try done.
  by apply (make_heap_entries_ordered frequency frequency self self').
Qed.

Lemma make_heap_builds_ordered_heap_witness :
  NoDup (Dict.keys [("a", 3); ("b", 2); ("c", 1)])
  /\ heap_ordered (heap HuffmanCoding_init) = true
  /\ exists self',
      make_heap HuffmanCoding_init [("a", 3); ("b", 2); ("c", 1)] = Ok self'
      /\ heap self'
         ≡ₚ (leaf_of <$> [("a", 3); ("b", 2); ("c", 1)])
            ++ heap HuffmanCoding_init
      /\ heap_ordered (heap self') = true
      /\ codes self' = codes HuffmanCoding_init
      /\ reverse_mapping self' = reverse_mapping HuffmanCoding_init.
Proof.
  assert (Hnd : NoDup (Dict.keys [("a", 3); ("b", 2); ("c", 1)])).
  { apply (bool_decide_unpack (NoDup (Dict.keys [("a", 3); ("b", 2); ("c", 1)]))).
    vm_compute. exact I. }
  split; [exact Hnd|]. split; [reflexivity|].
  apply (make_heap_builds_ordered_heap HuffmanCoding_init
           [("a", 3); ("b", 2); ("c", 1)] Hnd).
  reflexivity.
Defined.

(** X3: one turn of the loop of [merge_codes] on an ordered heap of two
    nodes or more: the two nodes popped are nodes of least frequency (the
    first not above the second, the second not above any node left), and the
    loop goes on with an ordered heap that holds the nodes left and the
    merged node, whose children are the two popped nodes. *)
Theorem merge_codes_merges_two_least (fuel : nat) (h : list HeapNode) :
  heap_ordered h = true ->
  (1 < length h)%nat ->
  exists node1 node2 rest h',
    node1 :: node2 :: rest ≡ₚ h
    /\ freq node1 <= freq node2
    /\ Forall (fun n => freq node2 <= freq n) rest
    /\ h' ≡ₚ {| char := None; freq := freq node1 + freq node2;
                left := Some node1; right := Some node2 |} :: rest
    /\ heap_ordered h' = true
    /\ merge_codes_loop (S fuel) h = merge_codes_loop fuel h'.
Proof.
  intros Hord Hlen.
  destruct (heappop_ordered h Hord) as (node1 & h1 & Hpop1 & Hord1 & Hp1 & Hmin1).
  { intros ->. simpl in Hlen. lia. }
  pose proof (Permutation_length Hp1) as Hl1. simpl in Hl1.
  destruct (heappop_ordered h1 Hord1) as (node2 & h2 & Hpop2 & Hord2 & Hp2 & Hmin2).
  { intros ->. simpl in Hl1. lia. }
  set (merged := {| char := None; freq := freq node1 + freq node2;
                    left := Some node1; right := Some node2 |}).
  destruct (heappush_ordered h2 merged Hord2) as (h3 & Hpush & Hord3).
  destruct (heappush_spec h2 merged) as (h3' & Hpush' & Hp3).
  rewrite Hpush in Hpush'. injection Hpush' as <-.
  exists node1, node2, h2, h3. repeat split; try done.
  - by rewrite Hp2.
  - rewrite Forall_forall in Hmin1. apply Hmin1. rewrite <- Hp2. by left.
  - cbn [merge_codes_loop]. rewrite decide_True by done.
    rewrite Hpop1. res_step. rewrite Hpop2. res_step. cbv zeta.
    fold merged. rewrite Hpush. done.
Qed.

Lemma merge_codes_merges_two_least_witness :
  heap_ordered [HeapNode_init (Some "c") 1; HeapNode_init (Some "a") 3;
                HeapNode_init (Some "b") 2] = true
  /\ (1 < length [HeapNode_init (Some "c") 1; HeapNode_init (Some "a") 3;
                  HeapNode_init (Some "b") 2])%nat
  /\ exists node1 node2 rest h',
      node1 :: node2 :: rest
      ≡ₚ [HeapNode_init (Some "c") 1; HeapNode_init (Some "a") 3;
          HeapNode_init (Some "b") 2]
      /\ freq node1 <= freq node2
      /\ Forall (fun n => freq node2 <= freq n) rest
      /\ h' ≡ₚ {| char := None; freq := freq node1 + freq node2;
                  left := Some node1; right := Some node2 |} :: rest
      /\ heap_ordered h' = true
      /\ merge_codes_loop 3
           [HeapNode_init (Some "c") 1; HeapNode_init (Some "a") 3;
            HeapNode_init (Some "b") 2]
         = merge_codes_loop 2 h'.
Proof.
  split; [reflexivity|]. split; [simpl; lia|].
  apply (merge_codes_merges_two_least 2
           [HeapNode_init (Some "c") 1; HeapNode_init (Some "a") 3;
            HeapNode_init (Some "b") 2]).
  - reflexivity.
  - simpl. lia.
Defined.

Lemma heap_ordered_short (h : list HeapNode) :
  (length h <= 1)%nat -> heap_ordered h = true.
Proof.
  intros Hlen. apply heap_ordered_spec. intros i c p Hi Hc _.
  apply lookup_lt_Some in Hc. lia.
Qed.

Lemma merge_codes_any_heap (self : HuffmanCoding) :
  exists self',
    merge_codes self = Ok self'
    /\ length (heap self') = Nat.min 1 (length (heap self))
    /\ total (freq <$> heap self') = total (freq <$> heap self)
    /\ heap self' ≫= leaves ≡ₚ heap self ≫= leaves
    /\ codes self' = codes self
    /\ reverse_mapping self' = reverse_mapping self.
Proof.
  unfold merge_codes.
  destruct (merge_codes_loop_spec (fun _ => True) freq
              (fun _ _ _ _ => I) (fun _ _ => eq_refl)
              _ leaves (fun _ _ => eq_refl)
              (length (heap self)) (heap self))
    as (h' & -> & Hlen & _ & Hm & Hlv); [lia|by apply Forall_true|].
  res_step. eexists. split; [done|]. cbn [heap codes reverse_mapping].
  repeat split; done.
Qed.

(** X4: whatever the heap, [merge_codes] returns: it leaves one tree when
    the heap held a node and none when it was empty; the tree has the total
    frequency and the leaves of the nodes that were in the heap; the code
    tables are not touched. *)
Theorem merge_codes_returns_one_tree (self : HuffmanCoding) :
  exists self',
    merge_codes self = Ok self'
    /\ length (heap self') = Nat.min 1 (length (heap self))
    /\ total (freq <$> heap self') = total (freq <$> heap self)
    /\ heap self' ≫= leaves ≡ₚ heap self ≫= leaves
    /\ heap_ordered (heap self') = true
    /\ codes self' = codes self
    /\ reverse_mapping self' = reverse_mapping self.
Proof.
  destruct (merge_codes_any_heap self)
    as (self' & Hrun & Hlen & Hm & Hlv & Hc & Hr).
  exists self'. repeat split; try done. apply heap_ordered_short. lia.
Qed.

(** * Packing bits into bytes *)

Lemma is_bit_inv (c : ascii) : is_bit c = true -> c = "0" \/ c = "1".
Proof.
  destruct c as [[] [] [] [] [] [] [] []]; simpl; intros H;
    try discriminate H; auto.
Qed.

Lemma bit_string_app (s1 s2 : str) :
  bit_string (s1 ++ s2) = bit_string s1 && bit_string s2.
Proof. apply forallb_app. Qed.

Lemma bit_string_replicate (n : nat) : bit_string (replicate n "0") = true.
Proof. induction n; simpl; auto. Qed.

(** Eight bits are read by [int(_, 2)] as a byte value, which
    ['{0:08b}'.format] writes back as the same eight bits. *)
Lemma byte_of_bits (w : str) :
  length w = 8%nat -> bit_string w = true ->
  exists v, Py.int2 w = Ok v /\ 0 <= v < 256 /\ Py.format_08b v = w.
Proof.
  intros Hlen Hbits.
  do 9 (destruct w as [|? w]; try discriminate Hlen). clear Hlen.
  unfold bit_string in Hbits. cbn [forallb] in Hbits.
  repeat match goal with
         | H : _ && _ = true |- _ =>
             let H1 := fresh in apply andb_prop in H as [H1 H];
             apply is_bit_inv in H1 as [-> | ->]
         end;
    eexists; (split; [vm_compute; reflexivity|]);
    (split; [lia|vm_compute; reflexivity]).
Qed.

Lemma length_concat_bytes (ws : list str) :
  Forall (fun w => length w = 8%nat) ws ->
  length (concat ws) = (8 * length ws)%nat.
Proof.
  induction 1 as [|w ws Hw _ IH]; [done|].
  simpl concat. rewrite length_app, Hw, IH. simpl length. lia.
Qed.

(** The loop of [get_byte_array] over the 8-character pieces of a string. *)
Lemma get_byte_array_loop (s : str) (ws : list str) (vs : list Z) :
  Forall2 (fun w v => length w = 8%nat /\ Py.int2 w = Ok v /\ 0 <= v < 256)
    ws vs ->
  forall (pre : str) (a : nat) (b : list Z),
    s = pre ++ concat ws -> length pre = (8 * a)%nat ->
    for_in ((fun k => 8 * k)%nat <$> seq a (length ws))
      (fun b i =>
         let byte := Py.slice s i 8 in
         v ← Py.int2 byte;
         bytearray_append b v)
      b = Ok (b ++ vs).
Proof.
  intros H.
  match goal with |- context [for_in _ ?f _] => set (body := f) end.
  induction H as [|w v ws vs (Hlen & Hint & Hv) _ IH]; intros pre a b Hs Hpre.
  - simpl. by rewrite app_nil_r.
  - cbn [length seq]. rewrite fmap_cons. cbn [for_in].
    assert (Hslice : Py.slice s (8 * a) 8 = w).
    { unfold Py.slice. rewrite Hs. simpl concat.
      rewrite drop_app_length' by done. by rewrite take_app_length'. }
    assert (Hstep : body b (8 * a)%nat = Ok (b ++ [v])).
    { unfold body. cbv zeta. rewrite Hslice, Hint. res_step.
      unfold bytearray_append. by rewrite decide_True. }
    rewrite Hstep. res_step.
    rewrite (IH (pre ++ w) (S a) (b ++ [v])).
    + by rewrite <- app_assoc.
    + rewrite Hs. simpl concat. by rewrite app_assoc.
    + rewrite length_app. lia.
Qed.

Lemma get_byte_array_concat (ws : list str) (vs : list Z) :
  Forall2 (fun w v => length w = 8%nat /\ Py.int2 w = Ok v /\ 0 <= v < 256)
    ws vs ->
  get_byte_array (concat ws) = Ok vs.
Proof.
  intros H. unfold get_byte_array, range_step8.
  rewrite length_concat_bytes.
  2:{ eapply Forall2_Forall_l; [exact H|]. apply Forall_true. by intros ? ? [? _]. }
  replace ((8 * length ws + 7) / 8)%nat with (length ws) by lia.
  exact (get_byte_array_loop (concat ws) ws vs H [] 0%nat [] eq_refl eq_refl).
Qed.

(** A bit string of [8 * n] characters is made of [n] bytes. *)
Lemma bit_chunks (n : nat) (s : str) :
  length s = (8 * n)%nat -> bit_string s = true ->
  exists ws vs,
    s = concat ws
    /\ Forall2 (fun w v => length w = 8%nat /\ Py.int2 w = Ok v
                           /\ 0 <= v < 256) ws vs
    /\ Py.format_08b <$> vs = ws.
Proof.
  revert s. induction n as [|n IH]; intros s Hlen Hbits.
  - destruct s; [|simpl in Hlen; lia]. by exists [], [].
  - rewrite <- (take_drop 8 s) in Hbits. rewrite bit_string_app in Hbits.
    apply andb_prop in Hbits as [Hb1 Hb2].
    destruct (byte_of_bits (take 8 s)) as (v & Hint & Hv & Hfmt);
      [rewrite length_take; lia|done|].
    destruct (IH (drop 8 s)) as (ws & vs & Hs & Hall & Hfm);
      [rewrite length_drop; lia|done|].
    exists (take 8 s :: ws), (v :: vs). repeat split.
    + simpl concat. by rewrite <- Hs, take_drop.
    + constructor; [|done]. repeat split; try done; try lia.
      rewrite length_take. lia.
    + rewrite fmap_cons. by f_equal.
Qed.

(** X5: on a bit string whose length is a multiple of 8, [get_byte_array]
    returns one byte value (0..255) for each 8 bits, most significant bit
    first: writing each byte back as 8 binary digits gives the string
    again, so the packing loses nothing. *)
Theorem get_byte_array_packs (s : str) :
  bit_string s = true ->
  (length s mod 8 = 0)%nat ->
  exists b,
    get_byte_array s = Ok b
    /\ length b = (length s / 8)%nat
    /\ Forall (fun v => 0 <= v < 256) b
    /\ b ≫= Py.format_08b = s.
Proof.
  intros Hbits Hmod.
  destruct (bit_chunks (length s / 8) s) as (ws & vs & Hs & Hall & Hfm);
    [lia|done|].
  exists vs. split; [rewrite Hs at 1; by apply get_byte_array_concat|].
  split.
  { rewrite <- (Forall2_length _ _ _ Hall).
    rewrite Hs, length_concat_bytes at 1.
    - lia.
    - eapply Forall2_Forall_l; [exact Hall|]. apply Forall_true.
      by intros ? ? [? _]. }
  split.
  { eapply Forall2_Forall_r; [exact Hall|]. apply Forall_true.
    by intros ? ? (_ & _ & ?). }
  rewrite Hs, <- Hfm. clear. induction vs as [|v vs IH]; [done|].
  rewrite bind_cons, fmap_cons. simpl concat. by rewrite IH.
Qed.

Lemma get_byte_array_packs_witness :
  bit_string (py "0000011001000000") = true
  /\ (length (py "0000011001000000") mod 8 = 0)%nat
  /\ exists b,
      get_byte_array (py "0000011001000000") = Ok b
      /\ length b = (length (py "0000011001000000") / 8)%nat
      /\ Forall (fun v => 0 <= v < 256) b
      /\ b ≫= Py.format_08b = py "0000011001000000".
Proof.
  split; [reflexivity|]. split; [reflexivity|].
  apply (get_byte_array_packs (py "0000011001000000")); reflexivity.
Defined.

(** X6: for every bit string, [get_byte_array] accepts what
    [pad_encoded_text] returns: the first byte is the padding count
    8 - L mod 8, the others are the packed bits and padding, and writing all
    the bytes back as 8 binary digits each gives the padded string again. *)
Theorem pad_then_pack (encoded_text : str) :
  bit_string encoded_text = true ->
  exists b,
    get_byte_array (pad_encoded_text encoded_text)
    = Ok (Z.of_nat (8 - length encoded_text mod 8) :: b)
    /\ length b
       = ((length encoded_text + (8 - length encoded_text mod 8)) / 8)%nat
    /\ Forall (fun v => 0 <= v < 256) b
    /\ (Z.of_nat (8 - length encoded_text mod 8) :: b) ≫= Py.format_08b
       = pad_encoded_text encoded_text.
Proof.
  intros Hbits.
  pose proof (pad_encoded_text_shape encoded_text) as Hshape. cbv zeta in Hshape.
  set (p := (8 - length encoded_text mod 8)%nat) in *.
  assert (Hp : (1 <= p <= 8)%nat) by (unfold p; lia).
  destruct (format_08b_padding p Hp) as [Hlen Hint].
  destruct (bit_chunks ((length encoded_text + p) / 8)
              (encoded_text ++ replicate p "0"))
    as (ws & vs & Hs & Hall & Hfm).
  { rewrite length_app, length_replicate. unfold p. lia. }
  { by rewrite bit_string_app, Hbits, bit_string_replicate. }
  exists vs. rewrite Hshape, Hs.
  change (Py.format_08b (Z.of_nat p) ++ concat ws)
    with (concat (Py.format_08b (Z.of_nat p) :: ws)).
  split.
  { apply get_byte_array_concat. constructor; [|done].
    repeat split; try done; lia. }
  split.
  { rewrite <- (Forall2_length _ _ _ Hall).
    assert (Hl : length (concat ws) = (length encoded_text + p)%nat)
      by (by rewrite <- Hs, length_app, length_replicate).
    rewrite length_concat_bytes in Hl.
    - lia.
    - eapply Forall2_Forall_l; [exact Hall|]. apply Forall_true.
      by intros ? ? [? _]. }
  split.
  { eapply Forall2_Forall_r; [exact Hall|]. apply Forall_true.
    by intros ? ? (_ & _ & ?). }
  rewrite bind_cons. simpl concat. f_equal. rewrite <- Hfm. clear.
  induction vs as [|v vs IH]; [done|].
  rewrite bind_cons, fmap_cons. simpl concat. by rewrite IH.
Qed.

Lemma pad_then_pack_witness :
  bit_string (py "000101011") = true
  /\ exists b,
      get_byte_array (pad_encoded_text (py "000101011"))
      = Ok (Z.of_nat (8 - length (py "000101011") mod 8) :: b)
      /\ length b
         = ((length (py "000101011")
             + (8 - length (py "000101011") mod 8)) / 8)%nat
      /\ Forall (fun v => 0 <= v < 256) b
      /\ (Z.of_nat (8 - length (py "000101011") mod 8) :: b) ≫= Py.format_08b
         = pad_encoded_text (py "000101011").
Proof.
  split; [reflexivity|].
  apply (pad_then_pack (py "000101011")). reflexivity.
Defined.

(** * Reading a compressed file *)

Lemma decompress_bit_string_cons (byte : Z) (file_bytes : list Z) :
  decompress_bit_string (byte :: file_bytes)
  = Py.rjust (Py.bin byte) 8 "0" ++ decompress_bit_string file_bytes.
Proof.
  assert (Hgen : forall (l : list Z) (acc : str),
    foldl (fun bit_string byte =>
             bit_string ++ Py.rjust (Py.bin byte) 8 "0") acc l
    = acc ++ foldl (fun bit_string byte =>
                      bit_string ++ Py.rjust (Py.bin byte) 8 "0") [] l).
  { induction l as [|x l IH]; intros acc; cbn [foldl].
    - by rewrite app_nil_r.
    - rewrite (IH (acc ++ _)), (IH ([] ++ _)). by rewrite <- app_assoc. }
  unfold decompress_bit_string. cbn [foldl]. by rewrite Hgen.
Qed.

(** What [decompress] makes of a byte below 32 has 8 characters that
    [int(_, 2)] does not read. *)
Lemma low_byte_unreadable (b0 : Z) :
  0 <= b0 < 32 ->
  length (Py.rjust (Py.bin b0) 8 "0") = 8%nat
  /\ Py.int2 (Py.rjust (Py.bin b0) 8 "0") = Raise ValueError.
Proof.
  intros Hb.
  assert (Hall : Forall (fun v => length (Py.rjust (Py.bin v) 8 "0") = 8%nat
                                  /\ Py.int2 (Py.rjust (Py.bin v) 8 "0")
                                     = Raise ValueError)
                   (seqZ 0 32)).
  { apply Forall_forall. intros x Hx.
    repeat (apply elem_of_cons in Hx as [->|Hx]; [by vm_compute|]).
    by apply elem_of_nil in Hx. }
  rewrite Forall_seqZ in Hall. apply Hall. lia.
Qed.

Lemma decompress_low_first_byte (self : HuffmanCoding) (b0 : Z)
    (rest : list Z) :
  0 <= b0 < 32 -> decompress self (Some (b0 :: rest)) true = Raise ValueError.
Proof.
  intros Hb. destruct (low_byte_unreadable b0 Hb) as [Hlen Hint].
  unfold decompress. cbn [negb]. cbv zeta. rewrite decompress_bit_string_cons.
  unfold remove_padding. cbv zeta.
  change 8 with (Z.of_nat 8). rewrite slice_to_nonneg.
  rewrite take_app_length' by done. by rewrite Hint.
Qed.

(** X7: when the input file and the output file both exist, [decompress]
    ends in [ValueError] on the empty input and on every input whose first
    byte is below 32: the header it builds with [bin(byte).rjust(8, '0')]
    holds the letter b where [int(_, 2)] does not accept it. *)
Theorem decompress_rejects_low_header (self : HuffmanCoding)
    (file_bytes : list Z) :
  (forall b0, head file_bytes = Some b0 -> 0 <= b0 < 32) ->
  decompress self (Some file_bytes) true = Raise ValueError.
Proof.
  intros H. destruct file_bytes as [|b0 rest]; [reflexivity|].
  apply decompress_low_first_byte. by apply H.
Qed.

Lemma decompress_rejects_low_header_witness :
  (forall b0, head [4; 21; 128] = Some b0 -> 0 <= b0 < 32)
  /\ decompress table_ab (Some [4; 21; 128]) true = Raise ValueError.
Proof.
  assert (H : forall b0, head [4; 21; 128] = Some b0 -> 0 <= b0 < 32)
    by (simpl; intros b0 [= <-]; lia).
  split; [exact H|].
  apply (decompress_rejects_low_header table_ab [4; 21; 128] H).
Defined.

(** X8: the two halves do not fit: for every bit string, [decompress] run
    on the bytes that [get_byte_array] packs from [pad_encoded_text]'s
    output ends in [FileNotFoundError] when the output file does not exist
    yet, and in [ValueError] when it does, whatever the code table. *)
Theorem packed_bytes_unreadable (self : HuffmanCoding) (encoded_text : str) :
  bit_string encoded_text = true ->
  exists b,
    get_byte_array (pad_encoded_text encoded_text) = Ok b
    /\ decompress self (Some b) false = Raise FileNotFoundError
    /\ decompress self (Some b) true = Raise ValueError.
Proof.
  intros Hbits.
  pose proof (pad_encoded_text_shape encoded_text) as Hshape. cbv zeta in Hshape.
  set (p := (8 - length encoded_text mod 8)%nat) in *.
  assert (Hp : (1 <= p <= 8)%nat) by (unfold p; lia).
  destruct (format_08b_padding p Hp) as [Hlen Hint].
  destruct (bit_chunks ((length encoded_text + p) / 8)
              (encoded_text ++ replicate p "0"))
    as (ws & vs & Hs & Hall & Hfm).
  { rewrite length_app, length_replicate. unfold p. lia. }
  { by rewrite bit_string_app, Hbits, bit_string_replicate. }
  exists (Z.of_nat p :: vs). rewrite Hshape, Hs.
  change (Py.format_08b (Z.of_nat p) ++ concat ws)
    with (concat (Py.format_08b (Z.of_nat p) :: ws)).
  split; [|split; [reflexivity|]].
  - apply get_byte_array_concat. constructor; [|done].
    repeat split; try done; lia.
  - apply decompress_low_first_byte. lia.
Qed.

Lemma packed_bytes_unreadable_witness :
  bit_string (py "000101011") = true
  /\ exists b,
      get_byte_array (pad_encoded_text (py "000101011")) = Ok b
      /\ decompress table_ab (Some b) false = Raise FileNotFoundError
      /\ decompress table_ab (Some b) true = Raise ValueError.
Proof.
  split; [reflexivity|].
  apply (packed_bytes_unreadable table_ab (py "000101011")). reflexivity.
Defined.

(** * The whole of [compress] *)

(** X9: [compress] never returns, whatever the text and the state of the
    object: it ends in [IndexError] when the stripped text is empty and the
    heap held no node, and in [RecursionError] otherwise; nothing is written
    to the output file. *)
Theorem compress_never_returns (depth : nat) (self : HuffmanCoding)
    (file_text : str) :
  compress depth self file_text
  = Raise (if decide (Py.rstrip file_text = [] /\ heap self = [])
           then IndexError else RecursionError)
  /\ output_file (compress depth self file_text) = [].
Proof.
  assert (H : compress depth self file_text
              = Raise (if decide (Py.rstrip file_text = [] /\ heap self = [])
                       then IndexError else RecursionError));
    [|by rewrite H].
  rewrite compress_unfold.
  destruct (make_frequency_dict_spec (Py.rstrip file_text))
    as (frequency & Hf & Hnd & Ht).
  rewrite Hf. res_step.
  destruct (make_heap_spec self frequency Hnd) as (self1 & H1 & Hheap1 & _).
  rewrite H1. res_step.
  destruct (merge_codes_any_heap self1) as (self2 & H2 & Hlen & _).
  rewrite H2. res_step.
  pose proof (Permutation_length Hheap1) as Hl1.
  rewrite length_app, length_fmap in Hl1.
  destruct (decide (Py.rstrip file_text = [] /\ heap self = [])) as [[He Hh]|Hn].
  - rewrite make_codes_empty; [done|].
    rewrite He in Hf. injection Hf as <-. rewrite Hh in Hl1. simpl in Hl1.
    apply nil_length_inv. lia.
  - rewrite make_codes_raises; [done|]. intros Hnil.
    rewrite Hnil in Hlen. cbn [length] in Hlen.
    assert (Hfreq : frequency = []) by (apply nil_length_inv; lia).
    apply Hn. split.
    + rewrite Hfreq in Ht. simpl in Ht. apply nil_length_inv. lia.
    + apply nil_length_inv. lia.
Qed.

(** * The encoder on pieces of text *)

Lemma encode_loop_acc (self : HuffmanCoding) (text acc : str) :
  for_in text
    (fun encoded_text character =>
       match codes self !! character with
       | Some code => Ok (encoded_text ++ code)
       | None => Raise (KeyError character)
       end)
    acc
  = (e ← get_encoded_text self text; Ok (acc ++ e)).
Proof.
  unfold get_encoded_text.
  match goal with |- context [for_in _ ?f _] => set (body := f) end.
  revert acc. induction text as [|c t IH]; intros acc.
  - simpl. by rewrite app_nil_r.
  - cbn [for_in]. unfold body at 2 4. cbv beta.
    destruct (codes self !! c) as [code|]; res_step; [|done].
    rewrite (IH (acc ++ code)), (IH ([] ++ code)).
    destruct (for_in t body []); res_step; [|done].
    by rewrite <- app_assoc.
Qed.

(** X10: encoding a text in two pieces: [get_encoded_text] on [t1 ++ t2]
    gives the code string of [t1] followed by the code string of [t2], and
    raises what the first failing piece raises. *)
Theorem get_encoded_text_app (self : HuffmanCoding) (t1 t2 : str) :
  get_encoded_text self (t1 ++ t2)
  = (e1 ← get_encoded_text self t1;
     e2 ← get_encoded_text self t2;
     Ok (e1 ++ e2)).
Proof.
  unfold get_encoded_text at 1. rewrite for_in_app.
  fold (get_encoded_text self t1).
  destruct (get_encoded_text self t1) as [e1|e]; res_step; [|done].
  apply encode_loop_acc.
Qed.

(** * Padding and its removal *)

(** X11: removing the padding undoes adding it: for every string,
    [remove_padding] returns what [pad_encoded_text] was given. *)
Theorem padding_round_trip (encoded_text : str) :
  remove_padding (pad_encoded_text encoded_text) = Ok encoded_text.
Proof. apply remove_padding_pad_encoded_text. Qed.

Lemma int2_raises (s : str) (e : exn) : Py.int2 s = Raise e -> e = ValueError.
Proof.
  unfold Py.int2.
  repeat match goal with
         | |- context [match ?x with _ => _ end] => destruct x
         end; intros [=]; done.
Qed.

Lemma slice_to_prefix (s : str) (stop : Z) : Py.slice_to s stop `prefix_of` s.
Proof.
  unfold Py.slice_to. destruct (stop <? 0); eexists; symmetry; apply take_drop.
Qed.

(** X12: [remove_padding] either raises [ValueError] (when the first 8
    characters are not read as a number) or returns a prefix of what follows
    the first 8 characters: it never changes or reorders the data. *)
Theorem remove_padding_keeps_prefix (bit_string : str) :
  remove_padding bit_string = Raise ValueError
  \/ exists r, remove_padding bit_string = Ok r
               /\ r `prefix_of` drop 8 bit_string.
Proof.
  unfold remove_padding. cbv zeta.
  destruct (Py.int2 (Py.slice_to bit_string 8)) as [p|e] eqn:Hint; res_step.
  - right. eexists. split; [done|]. apply slice_to_prefix.
  - left. by rewrite (int2_raises _ _ Hint).
Qed.

(** X13: a padding count that is not below the number of characters after
    the header is not reported as an error: [remove_padding] returns the
    empty string. *)
Theorem remove_padding_oversized_count (bit_string : str) (p : Z) :
  Py.int2 (Py.slice_to bit_string 8) = Ok p ->
  Z.of_nat (length (drop 8 bit_string)) <= p ->
  remove_padding bit_string = Ok [].
Proof.
  intros Hint Hp. unfold remove_padding. cbv zeta. rewrite Hint. res_step.
  f_equal. unfold Py.slice_to, Py.slice_from.
  destruct (Z.ltb_spec (-1 * p) 0).
  - replace (Z.to_nat (Z.of_nat (length (drop 8 bit_string)) + -1 * p))
      with 0%nat by lia.
    done.
  - assert (p = 0) as -> by lia. done.
Qed.

Lemma remove_padding_oversized_count_witness :
  Py.int2 (Py.slice_to (py "00001000101") 8) = Ok 8
  /\ Z.of_nat (length (drop 8 (py "00001000101"))) <= 8
  /\ remove_padding (py "00001000101") = Ok [].
Proof.
  split; [reflexivity|]. split; [simpl; lia|].
  apply (remove_padding_oversized_count (py "00001000101") 8).
  - reflexivity.
  - simpl. lia.
Defined.

(** * The decoder on whole texts *)

(** X14: [decode_text] reads one bit: its result is the same whatever
    follows the first bit, holds at most one symbol, and is [None] on the
    empty string only. *)
Theorem decode_text_reads_one_bit (self : HuffmanCoding) (bit : ascii)
    (rest : str) :
  decode_text self (bit :: rest) = decode_text self [bit]
  /\ (exists d, decode_text self (bit :: rest) = Some d /\ (length d <= 1)%nat)
  /\ decode_text self [] = None.
Proof.
  split; [by rewrite !decode_text_first_bit|]. split; [|done].
  rewrite decode_text_first_bit. eexists. split; [done|].
  destruct (reverse_mapping self !! [bit]); simpl; lia.
Qed.

(** X15: no text of two symbols or more survives encoding, padding,
    unpadding and decoding, whatever the code table: the encoder's output
    comes back from [remove_padding] unchanged, and [decode_text] then
    returns something else than the text. *)
Theorem round_trip_fails_beyond_one_symbol (self : HuffmanCoding)
    (T e : str) :
  (2 <= length T)%nat ->
  get_encoded_text self T = Ok e ->
  remove_padding (pad_encoded_text e) = Ok e
  /\ decode_text self e <> Some T.
Proof.
  intros HT He. split; [apply remove_padding_pad_encoded_text|].
  intros Hd. apply decode_text_at_most_one in Hd. lia.
Qed.

Lemma round_trip_fails_beyond_one_symbol_witness :
  (2 <= length (py "abba"))%nat
  /\ get_encoded_text table_ab (py "abba") = Ok (py "0110")
  /\ remove_padding (pad_encoded_text (py "0110")) = Ok (py "0110")
  /\ decode_text table_ab (py "0110") <> Some (py "abba").
Proof.
  split; [simpl; lia|]. split; [reflexivity|].
  apply (round_trip_fails_beyond_one_symbol table_ab (py "abba") (py "0110")).
  - simpl. lia.
  - reflexivity.
Defined.

(** X16: [decompress] never returns and never writes a text, whatever the
    files and the code table: it ends in [FileNotFoundError] when the input
    file or the output file does not exist; otherwise in [ValueError] when
    the header is not read as a number, in [TypeError] when no bit is left
    after the padding is removed ([decode_text] then gives [None]), and in
    [UnsupportedOperation] in every other case (the output file is open for
    reading). *)
Theorem decompress_never_returns (self : HuffmanCoding)
    (input_file : option (list Z)) (output_exists : bool) :
  exists e,
    decompress self input_file output_exists = Raise e
    /\ match input_file with
       | None => e = FileNotFoundError
       | Some file_bytes =>
           if output_exists then
             match remove_padding (decompress_bit_string file_bytes) with
             | Raise _ => e = ValueError
             | Ok [] => e = TypeError
             | Ok (_ :: _) => e = UnsupportedOperation
             end
           else e = FileNotFoundError
       end.
Proof.
  unfold decompress. destruct input_file as [file_bytes|]; [|by eexists].
  destruct output_exists; cbn [negb]; [|by eexists]. cbv zeta.
  destruct (remove_padding (decompress_bit_string file_bytes))
    as [encoded_text|e] eqn:Hrm; res_step.
  - destruct encoded_text as [|bit rest].
    + by eexists.
    + rewrite decode_text_first_bit. by eexists.
  - exists e. split; [done|]. revert Hrm. unfold remove_padding. cbv zeta.
    destruct (Py.int2 _) as [p|e'] eqn:Hint; res_step; [done|].
    intros [= <-]. by rewrite (int2_raises _ _ Hint).
Qed.

(** * From the code table to the bytes *)

Lemma encode_loop_bits (self : HuffmanCoding) (text acc e : str) :
  (forall c code, codes self !! c = Some code -> bit_string code = true) ->
  bit_string acc = true ->
  for_in text
    (fun encoded_text character =>
       match codes self !! character with
       | Some code => Ok (encoded_text ++ code)
       | None => Raise (KeyError character)
       end)
    acc = Ok e ->
  bit_string e = true.
Proof.
  intros Hcodes. revert acc. induction text as [|c t IH]; intros acc Hacc.
  - by intros [= <-].
  - cbn [for_in]. destruct (codes self !! c) as [code|] eqn:Hc; res_step;
      [|intros; discriminate].
    apply IH. rewrite bit_string_app, Hacc. by apply (Hcodes c).
Qed.

(** X17: with a code table whose codes are bit strings, what
    [get_encoded_text] returns is a bit string, and the next two steps of
    [compress] go through on it: [get_byte_array] packs the padded string
    into bytes, the first being the padding count, from which the padded
    string, and after [remove_padding] the encoded text, can be read
    back. *)
Theorem encoded_text_packs (self : HuffmanCoding) (text e : str) :
  (forall c code, codes self !! c = Some code -> bit_string code = true) ->
  get_encoded_text self text = Ok e ->
  bit_string e = true
  /\ exists b,
      get_byte_array (pad_encoded_text e)
      = Ok (Z.of_nat (8 - length e mod 8) :: b)
      /\ (Z.of_nat (8 - length e mod 8) :: b) ≫= Py.format_08b
         = pad_encoded_text e
      /\ remove_padding ((Z.of_nat (8 - length e mod 8) :: b) ≫= Py.format_08b)
         = Ok e.
Proof.
  intros Hcodes He.
  assert (Hbits : bit_string e = true)
    by (by apply (encode_loop_bits self text [] e Hcodes)).
  split; [done|].
  pose proof (pad_encoded_text_shape e) as Hshape. cbv zeta in Hshape.
  set (p := (8 - length e mod 8)%nat) in *.
  assert (Hp : (1 <= p <= 8)%nat) by (unfold p; lia).
  destruct (format_08b_padding p Hp) as [Hlen Hint].
  destruct (bit_chunks ((length e + p) / 8) (e ++ replicate p "0"))
    as (ws & vs & Hs & Hall & Hfm).
  { rewrite length_app, length_replicate. unfold p. lia. }
  { by rewrite bit_string_app, Hbits, bit_string_replicate. }
  assert (Hback : (Z.of_nat p :: vs) ≫= Py.format_08b = pad_encoded_text e).
  { rewrite Hshape, Hs, bind_cons. f_equal. rewrite <- Hfm. clear.
    induction vs as [|v vs IH]; [done|].
    rewrite bind_cons, fmap_cons. simpl concat. by rewrite IH. }
  exists vs. split; [|split; [done|]].
  - rewrite Hshape, Hs.
    change (Py.format_08b (Z.of_nat p) ++ concat ws)
      with (concat (Py.format_08b (Z.of_nat p) :: ws)).
    apply get_byte_array_concat. constructor; [|done].
    repeat split; try done; lia.
  - rewrite Hback. apply remove_padding_pad_encoded_text.
Qed.

Lemma encoded_text_packs_witness :
  (forall c code, codes table_ab !! c = Some code -> bit_string code = true)
  /\ get_encoded_text table_ab (py "abba") = Ok (py "0110")
  /\ bit_string (py "0110") = true
  /\ exists b,
      get_byte_array (pad_encoded_text (py "0110"))
      = Ok (Z.of_nat (8 - length (py "0110") mod 8) :: b)
      /\ (Z.of_nat (8 - length (py "0110") mod 8) :: b) ≫= Py.format_08b
         = pad_encoded_text (py "0110")
      /\ remove_padding
           ((Z.of_nat (8 - length (py "0110") mod 8) :: b) ≫= Py.format_08b)
         = Ok (py "0110").
Proof.
  assert (H : forall c code,
             codes table_ab !! c = Some code -> bit_string code = true).
  { intros c code. unfold table_ab. cbn [codes].
    rewrite lookup_insert. destruct (decide ("a" = c)); [by intros [= <-]|].
    rewrite lookup_insert. destruct (decide ("b" = c)); [by intros [= <-]|].
    by rewrite lookup_empty. }
  split; [exact H|]. split; [reflexivity|].
  apply (encoded_text_packs table_ab (py "abba") (py "0110") H). reflexivity.
Defined.
